(** * larana / T0Finder / MCParticleHitMatching_module.cc

    A shallow embedding of [t0::MCParticleHitMatching::produce], the art
    producer that associates every reconstructed hit with the simulated
    particles that deposited energy in it, together with the properties
    stated about it.

    The C++ code computes with [float] (the per-track sums and the
    association metadata) and [double] (the running totals and maxima).
    The embedding is written over an interface of the arithmetic
    operations the code uses ([Arith]) and instantiated with IEEE-754
    binary32/binary64 ([IEEE], built on the standard library's [SpecFloat]),
    which is what the compiled code does when [float] and [double]
    expressions are evaluated in their own formats.

    Everything the module takes from the framework is an input of the
    embedding: the event (is it real data, the particle collection, the hit
    collection) and the answer of the back tracker for each hit. *)

From Stdlib Require Import ZArith Lia List String.
From Stdlib Require Import Floats.SpecFloat.
From stdpp Require Import base gmap list fin_maps.

Local Open Scope Z_scope.

(** ** Arithmetic of the module *)

Record Arith := {
  flt : Type;                       (* C++ [float] *)
  dbl : Type;                       (* C++ [double] *)
  flt_zero : flt;                   (* a value-initialised [float] *)
  flt_add : flt -> flt -> flt;      (* [float += float] *)
  to_dbl : flt -> dbl;              (* implicit promotion [float] -> [double] *)
  dbl_zero : dbl;                   (* the literal [0] stored in a [double] *)
  dbl_m1 : dbl;                     (* the literal [-1] stored in a [double] *)
  dbl_add : dbl -> dbl -> dbl;      (* [double += double] *)
  dbl_gt : dbl -> dbl -> bool;      (* [a > b] on [double] *)
  dbl_div : dbl -> dbl -> dbl;      (* [a / b] on [double] *)
  to_flt : dbl -> flt               (* conversion on assignment to a [float] *)
}.

(** [(int)i_p] for a [size_t i_p]: reduction modulo 2^32 into the range of a
    32-bit two's complement [int]. *)
Definition int_of_size_t (i_p : nat) : Z :=
  let r := Z.of_nat i_p mod 2 ^ 32 in
  if r <? 2 ^ 31 then r else r - 2 ^ 32.

(** [simb::MCParticle]: only [TrackId()] is read by the module. *)
Record MCParticle := { TrackId : Z }.

Section Attributor.
Variable A : Arith.

(** [sim::TrackIDE], one contribution record returned by the back tracker
    (its [energyFrac] member is never read here). *)
Record TrackIDE := {
  trackID : Z;
  energy : flt A;
  numElectrons : flt A
}.

(** The private [struct TrackIDEinfo]. *)
Record TrackIDEinfo := {
  E : flt A;
  NumElectrons : flt A
}.

(** [anab::BackTrackerHitMatchingData], the metadata of one association,
    as lardataobj declares it: four [float] members and two [int] flags,
    which only ever receive the value of a comparison and are kept as
    [bool] here.  Its members [energy] and [numElectrons] are [bt_energy]
    and [bt_numElectrons], the names being taken by [sim::TrackIDE]. *)
Record BackTrackerHitMatchingData := {
  ideFraction : flt A;
  isMaxIDE : bool;
  ideNFraction : flt A;
  isMaxIDEN : bool;
  bt_energy : flt A;
  bt_numElectrons : flt A
}.

(** One [addSingle(hitPtr, mcpartPtr, bthmd)]: the hit by its position in
    the hit collection, the particle by the key given to its [art::Ptr]. *)
Record Assn := {
  hit_key : nat;
  mcpart_key : Z;
  data : BackTrackerHitMatchingData
}.

(** The locals of [produce] that live across loop iterations, and the
    member [fTrkIDECollector]. *)
Record Locals := {
  maxe : dbl A;
  tote : dbl A;
  maxtrkid : Z;
  maxn : dbl A;
  totn : dbl A;
  maxntrkid : Z;
  trkid_lookup : gmap Z Z;
  fTrkIDECollector : gmap Z TrackIDEinfo;
  MCPartHitassn : list Assn
}.

(** [fTrkIDECollector[k]]: [operator[]] of [std::unordered_map] creates a
    value-initialised element when the key is absent. *)
Definition collector_at (c : gmap Z TrackIDEinfo) (k : Z) : TrackIDEinfo :=
  default {| E := flt_zero A; NumElectrons := flt_zero A |} (c !! k).

(** Lines 148-150. *)
Definition add_energy (st : Locals) (t : TrackIDE) : Locals :=
  let k := trackID t in
  let old := collector_at (fTrkIDECollector st) k in
  let new := {| E := flt_add A (E old) (energy t);
                NumElectrons := NumElectrons old |} in
  let tote' := dbl_add A (tote st) (to_dbl A (energy t)) in
  let upd := dbl_gt A (to_dbl A (E new)) (maxe st) in
  {| maxe := if upd then to_dbl A (E new) else maxe st;
     tote := tote';
     maxtrkid := if upd then k else maxtrkid st;
     maxn := maxn st; totn := totn st; maxntrkid := maxntrkid st;
     trkid_lookup := trkid_lookup st;
     fTrkIDECollector := <[k := new]> (fTrkIDECollector st);
     MCPartHitassn := MCPartHitassn st |}.

(** Lines 151-156. *)
Definition add_charge (st : Locals) (t : TrackIDE) : Locals :=
  let k := trackID t in
  let old := collector_at (fTrkIDECollector st) k in
  let new := {| E := E old;
                NumElectrons := flt_add A (NumElectrons old) (numElectrons t) |} in
  let totn' := dbl_add A (totn st) (to_dbl A (numElectrons t)) in
  let upd := dbl_gt A (to_dbl A (NumElectrons new)) (maxn st) in
  {| maxe := maxe st; tote := tote st; maxtrkid := maxtrkid st;
     maxn := if upd then to_dbl A (NumElectrons new) else maxn st;
     totn := totn';
     maxntrkid := if upd then k else maxntrkid st;
     trkid_lookup := trkid_lookup st;
     fTrkIDECollector := <[k := new]> (fTrkIDECollector st);
     MCPartHitassn := MCPartHitassn st |}.

(** The [while] loop of lines 160-164, started at position [i_p]: the
    position at which it breaks, or [None] when it runs off the end. *)
Fixpoint scan (mcpartList : list MCParticle) (k : Z) (i_p : nat) : option nat :=
  match mcpartList with
  | [] => None
  | p :: rest => if TrackId p =? k then Some i_p else scan rest k (S i_p)
  end.

(** Lines 159-166. *)
Definition find_mcparticle (mcpartList : list MCParticle)
    (st : Locals) (t : TrackIDE) : Locals :=
  let k := trackID t in
  match trkid_lookup st !! k with
  | Some _ => st
  | None =>
      let v := match scan mcpartList k 0 with
               | Some i_p => int_of_size_t i_p
               | None => -1
               end in
      {| maxe := maxe st; tote := tote st; maxtrkid := maxtrkid st;
         maxn := maxn st; totn := totn st; maxntrkid := maxntrkid st;
         trkid_lookup := <[k := v]> (trkid_lookup st);
         fTrkIDECollector := fTrkIDECollector st;
         MCPartHitassn := MCPartHitassn st |}
  end.

(** Body of the loop on the contribution records, lines 147-166. *)
Definition trkide_body (mcpartList : list MCParticle)
    (st : Locals) (t : TrackIDE) : Locals :=
  find_mcparticle mcpartList (add_charge (add_energy st t) t) t.

(** Lines 146-168. *)
Definition trkide_loop (mcpartList : list MCParticle)
    (trkide_list : list TrackIDE) (st : Locals) : Locals :=
  fold_left (trkide_body mcpartList) trkide_list st.

(** Lines 177-182: the metadata written for the collector element [t]. *)
Definition bthmd (st : Locals) (t : Z * TrackIDEinfo) : BackTrackerHitMatchingData :=
  {| ideFraction := to_flt A (dbl_div A (to_dbl A (E t.2)) (tote st));
     isMaxIDE := bool_decide (t.1 = maxtrkid st);
     ideNFraction := to_flt A (dbl_div A (to_dbl A (NumElectrons t.2)) (totn st));
     isMaxIDEN := bool_decide (t.1 = maxntrkid st);
     bt_energy := E t.2;
     bt_numElectrons := NumElectrons t.2 |}.

(** Body of the loop on the collector, lines 174-183.  [trkid_lookup[k]]
    is again [operator[]]: an absent key is created with value [0]. *)
Definition assn_body (i_h : nat) (st : Locals) (t : Z * TrackIDEinfo) : Locals :=
  let lk := match trkid_lookup st !! t.1 with
            | Some _ => trkid_lookup st
            | None => <[t.1 := 0]> (trkid_lookup st)
            end in
  let mcpart_i := default 0 (trkid_lookup st !! t.1) in
  {| maxe := maxe st; tote := tote st; maxtrkid := maxtrkid st;
     maxn := maxn st; totn := totn st; maxntrkid := maxntrkid st;
     trkid_lookup := lk;
     fTrkIDECollector := fTrkIDECollector st;
     MCPartHitassn :=
       if mcpart_i =? -1 then MCPartHitassn st
       else MCPartHitassn st ++
            [ {| hit_key := i_h; mcpart_key := mcpart_i; data := bthmd st t |} ] |}.

(** Lines 173-184.  The iteration order of a [std::unordered_map] is
    unspecified; the elements are visited in the order of [map_to_list].
    [assn_loop_in] below is the same loop for an arbitrary order, and
    what is stated about the order of the associations of one hit is
    stated there. *)
Definition assn_loop (i_h : nat) (st : Locals) : Locals :=
  fold_left (assn_body i_h) (map_to_list (fTrkIDECollector st)) st.

(** Lines 141-143: the per-hit reset. *)
Definition reset (st : Locals) : Locals :=
  {| maxe := dbl_m1 A; tote := dbl_zero A; maxtrkid := -1;
     maxn := dbl_m1 A; totn := dbl_zero A; maxntrkid := -1;
     trkid_lookup := trkid_lookup st;
     fTrkIDECollector := ∅;
     MCPartHitassn := MCPartHitassn st |}.

(** Lines 116-124: the locals on entry to the loop on hits.  What the
    member [fTrkIDECollector] holds on entry is of no consequence, since
    line 143 clears it before it is read; it is taken to be empty. *)
Definition initial : Locals :=
  {| maxe := dbl_m1 A; tote := dbl_zero A; maxtrkid := -1;
     maxn := dbl_m1 A; totn := dbl_zero A; maxntrkid := -1;
     trkid_lookup := ∅;
     fTrkIDECollector := ∅;
     MCPartHitassn := [] |}.

Section Event.
Variable Hit : Type.
(** [bt->HitToTrackID(hitPtr)] of the [cheat::BackTracker] service. *)
Variable HitToTrackID : Hit -> list TrackIDE.

(** Body of the loop on hits, lines 138-184. *)
Definition hit_body (mcpartList : list MCParticle) (i_h : nat) (h : Hit)
    (st : Locals) : Locals :=
  assn_loop i_h (trkide_loop mcpartList (HitToTrackID h) (reset st)).

(** Lines 137-186, from hit position [i_h] on. *)
Fixpoint hit_loop (mcpartList : list MCParticle) (i_h : nat)
    (hitList : list Hit) (st : Locals) : Locals :=
  match hitList with
  | [] => st
  | h :: rest => hit_loop mcpartList (S i_h) rest (hit_body mcpartList i_h h st)
  end.

(** What [produce] reads from the [art::Event]. *)
Record Event := {
  isRealData : bool;
  mcparticles : option (list MCParticle);   (* product of fMCParticleModuleLabel *)
  hits : option (list Hit)                  (* product of fHitModuleLabel *)
}.

(** What [produce] leaves behind when it returns. *)
Record Effects := {
  cerr : list string;
  put : option (list Assn)      (* the collection given to [evt.put] *)
}.

Inductive Outcome :=
| Returns (eff : Effects)
| Throws_ProductNotFound.       (* [getValidHandle] on a missing product *)

(** [t0::MCParticleHitMatching::produce], lines 106-189. *)
Definition produce (evt : Event) : Outcome :=
  if isRealData evt then Returns {| cerr := []; put := None |}
  else
    match mcparticles evt with
    | None => Throws_ProductNotFound
    | Some mcpartList =>
        match hits evt with
        | None =>
            Returns {| cerr := ["Hit handle is not valid!"%string]; put := None |}
        | Some hitList =>
            Returns {| cerr := [];
                       put := Some (MCPartHitassn
                                      (hit_loop mcpartList 0 hitList initial)) |}
        end
    end.
End Event.
End Attributor.

Arguments trackID {A} _.
Arguments energy {A} _.
Arguments numElectrons {A} _.
Arguments E {A} _.
Arguments NumElectrons {A} _.
Arguments ideFraction {A} _.
Arguments isMaxIDE {A} _.
Arguments ideNFraction {A} _.
Arguments isMaxIDEN {A} _.
Arguments bt_energy {A} _.
Arguments bt_numElectrons {A} _.
Arguments hit_key {A} _.
Arguments mcpart_key {A} _.
Arguments data {A} _.
Arguments maxe {A} _.
Arguments tote {A} _.
Arguments maxtrkid {A} _.
Arguments maxn {A} _.
Arguments totn {A} _.
Arguments maxntrkid {A} _.
Arguments trkid_lookup {A} _.
Arguments fTrkIDECollector {A} _.
Arguments MCPartHitassn {A} _.
Arguments isRealData {Hit} _.
Arguments mcparticles {Hit} _.
Arguments hits {Hit} _.
Arguments cerr {A} _.
Arguments put {A} _.
Arguments Returns {A} _.
Arguments Throws_ProductNotFound {A}.

(** ** IEEE-754 instance: [float] is binary32, [double] is binary64 *)

Module Ieee.
Definition prec32 : Z := 24.
Definition emax32 : Z := 128.
Definition prec64 : Z := 53.
Definition emax64 : Z := 1024.

(** Promotion is exact: the same value with the 53-digit mantissa of the
    binary64 format. *)
Definition promote (x : spec_float) : spec_float :=
  match x with
  | S754_finite s m e =>
      let '(m', e') :=
        shl_align m e (fexp prec64 emax64 (Z.pos (digits2_pos m) + e)) in
      S754_finite s m' e'
  | _ => x
  end.

(** Narrowing rounds to nearest, ties to even. *)
Definition narrow (x : spec_float) : spec_float :=
  match x with
  | S754_finite s m e => binary_round prec32 emax32 s m e
  | _ => x
  end.

Definition gt (a b : spec_float) : bool := SFltb b a.

Definition minus_one : spec_float := S754_finite true (2 ^ 52) (-52).

(** A [float] that is not NaN, not negative, and a member of binary32
    (zeros of either sign and [+inf] included). *)
Definition nonneg32 (x : spec_float) : bool :=
  match x with
  | S754_zero _ => true
  | S754_infinity s => negb s
  | S754_nan => false
  | S754_finite s m e => negb s && bounded prec32 emax32 m e
  end.

Definition not_nan (x : spec_float) : bool :=
  match x with S754_nan => false | _ => true end.

Definition is_zero (x : spec_float) : bool :=
  match x with S754_zero _ => true | _ => false end.
End Ieee.

Definition IEEE : Arith :=
  {| flt := spec_float;
     dbl := spec_float;
     flt_zero := S754_zero false;
     flt_add := SFadd Ieee.prec32 Ieee.emax32;
     to_dbl := Ieee.promote;
     dbl_zero := S754_zero false;
     dbl_m1 := Ieee.minus_one;
     dbl_add := SFadd Ieee.prec64 Ieee.emax64;
     dbl_gt := Ieee.gt;
     dbl_div := SFdiv Ieee.prec64 Ieee.emax64;
     to_flt := Ieee.narrow |}.

(** binary32 literals used in examples: [f32 n] is the integer [n] as a
    [float] (exact for [0 < n < 2^24]). *)
Definition f32 (n : positive) : spec_float := binary_round 24 128 false n 0.

Definition ide (k : Z) (e n : positive) : TrackIDE IEEE :=
  Build_TrackIDE IEEE k (f32 e) (f32 n).

(** *** Example inputs

    Hits are numbered; the back tracker is a function of the hit. *)

(** The scenario of the specification: two records of track 5 and one of
    track 7, energies 3, 2 and 4, charges 1, 1 and 5. *)
Definition scenario_records : list (TrackIDE IEEE) :=
  [ide 5 3 1; ide 5 2 1; ide 7 4 5].

(** Track 5 is seen first and ends with the same sums as track 7. *)
Definition tie_records : list (TrackIDE IEEE) :=
  [ide 5 1 1; ide 7 3 3; ide 5 2 2].

(** Track 9 has the larger sums. *)
Definition mixed_records : list (TrackIDE IEEE) :=
  [ide 5 1 1; ide 9 3 3].


Definition scenario_bt (h : nat) : list (TrackIDE IEEE) :=
  match h with
  | O => scenario_records
  | _ => []
  end.

Definition mixed_bt (h : nat) : list (TrackIDE IEEE) :=
  match h with
  | O => mixed_records
  | _ => []
  end.

(** Particles 7, 5 and a second particle with track id 5. *)
Definition scenario_particles : list MCParticle :=
  [ {| TrackId := 7 |}; {| TrackId := 5 |}; {| TrackId := 5 |} ].

(** No particle carries track id 9. *)
Definition mixed_particles : list MCParticle := [ {| TrackId := 5 |} ].

(** What [produce] puts for one hit with [mixed_records] and
    [mixed_particles]: the association of track 5, with a quarter of the
    energy and of the charge. *)
Definition mixed_out : list (Assn IEEE) :=
  [ Build_Assn IEEE 0 0
      (Build_BackTrackerHitMatchingData IEEE
         (S754_finite false 8388608 (-25)) false
         (S754_finite false 8388608 (-25)) false
         (f32 1) (f32 1)) ].

Definition simulated_event (ps : list MCParticle) (n : nat) : Event nat :=
  {| isRealData := false; mcparticles := Some ps; hits := Some (seq 0 n) |}.

Definition real_event : Event nat :=
  {| isRealData := true; mcparticles := Some scenario_particles;
     hits := Some [0%nat; 1%nat] |}.

Definition event_without_hits : Event nat :=
  {| isRealData := false; mcparticles := Some scenario_particles; hits := None |}.

(** ** Derived notions used in the statements *)

Section Notions.
Variable A : Arith.

(** The value [trkid_lookup] receives for a track id that is looked up
    for the first time (lines 160-165). *)
Definition resolve (mcpartList : list MCParticle) (k : Z) : Z :=
  match scan mcpartList k 0 with
  | Some i_p => int_of_size_t i_p
  | None => -1
  end.

(** Every cached entry is what a fresh look-up would give. *)
Definition cache_ok (mcpartList : list MCParticle) (lk : gmap Z Z) : Prop :=
  forall k v, lk !! k = Some v -> v = resolve mcpartList k.

(** The state after the loop on the records of one hit.  The particles
    and the cache are left out: by [trkide_loop_reset] below, the state
    that [produce] is in after this loop has the same accumulators,
    whatever the particles and the cache. *)
Definition collected (trkide_list : list (TrackIDE A)) : Locals A :=
  trkide_loop A [] trkide_list (initial A).

(** The association written for a collector element whose track id is
    looked up in [mcpartList], if any. *)
Definition assn_for (mcpartList : list MCParticle) (i_h : nat) (st : Locals A)
    (t : Z * TrackIDEinfo A) : option (Assn A) :=
  if resolve mcpartList t.1 =? -1 then None
  else Some {| hit_key := i_h; mcpart_key := resolve mcpartList t.1;
               data := bthmd A st t |}.

(** The associations written for a hit at position [i_h] whose records are
    [trkide_list]. *)
Definition hit_assns (mcpartList : list MCParticle) (i_h : nat)
    (trkide_list : list (TrackIDE A)) : list (Assn A) :=
  omap (assn_for mcpartList i_h (collected trkide_list))
       (map_to_list (fTrkIDECollector (collected trkide_list))).

(** The associations of all hits from position [i_h] on, [HitToTrackID]
    being the back tracker. *)
Fixpoint event_assns (Hit : Type) (HitToTrackID : Hit -> list (TrackIDE A))
    (mcpartList : list MCParticle) (i_h : nat) (hitList : list Hit) : list (Assn A) :=
  match hitList with
  | [] => []
  | h :: rest =>
      hit_assns mcpartList i_h (HitToTrackID h) ++
      event_assns Hit HitToTrackID mcpartList (S i_h) rest
  end.

(** The associations of a written collection that belong to the hit at
    position [i_h]. *)
Definition assns_of_hit (i_h : nat) (out : list (Assn A)) : list (Assn A) :=
  filter (fun a => hit_key a = i_h) out.

(** Some particle of the collection carries track id [k]. *)
Definition carried (mcpartList : list MCParticle) (k : Z) : Prop :=
  Exists (fun p => TrackId p = k) mcpartList.

(** The denominators: the sums of the energies and of the charges of all
    records of a hit, accumulated in [double] in record order. *)
Definition total_energy (trkide_list : list (TrackIDE A)) : dbl A :=
  fold_left (fun acc t => dbl_add A acc (to_dbl A (energy t))) trkide_list (dbl_zero A).

Definition total_charge (trkide_list : list (TrackIDE A)) : dbl A :=
  fold_left (fun acc t => dbl_add A acc (to_dbl A (numElectrons t))) trkide_list
    (dbl_zero A).

(** [v] is the lowest position of a particle that carries track id [k]. *)
Definition first_carrier (mcpartList : list MCParticle) (k v : Z) : Prop :=
  0 <= v /\
  (exists p, mcpartList !! Z.to_nat v = Some p /\ TrackId p = k) /\
  (forall n q, (n < Z.to_nat v)%nat -> mcpartList !! n = Some q -> TrackId q ≠ k).

(** The distinct track ids of a record list. *)
Definition track_ids (trkide_list : list (TrackIDE A)) : gset Z :=
  list_to_set (trackID <$> trkide_list).

(** Two states that agree on everything the accumulation reads and
    writes. *)
Definition same_acc (st1 st2 : Locals A) : Prop :=
  maxe st1 = maxe st2 /\ tote st1 = tote st2 /\ maxtrkid st1 = maxtrkid st2 /\
  maxn st1 = maxn st2 /\ totn st1 = totn st2 /\ maxntrkid st1 = maxntrkid st2 /\
  fTrkIDECollector st1 = fTrkIDECollector st2.

(** *** The running maximum on its own

    Lines 148-150 only touch the [E] members, [maxe] and [maxtrkid];
    lines 151-156 do the same with [NumElectrons], [maxn] and
    [maxntrkid].  [run_max_step] is that computation on the triple of
    the per-track sums, the running maximum and its track id. *)
Definition RunMax : Type := gmap Z (flt A) * dbl A * Z.

Definition run_max_step (s : RunMax) (k : Z) (x : flt A) : RunMax :=
  let new := flt_add A (default (flt_zero A) (s.1.1 !! k)) x in
  let upd := dbl_gt A (to_dbl A new) s.1.2 in
  (<[k := new]> s.1.1, if upd then to_dbl A new else s.1.2, if upd then k else s.2).

Definition run_max (l : list (Z * flt A)) : RunMax :=
  fold_left (fun s kx => run_max_step s kx.1 kx.2) l (∅, dbl_m1 A, -1).

Definition energy_view (st : Locals A) : RunMax :=
  (E <$> fTrkIDECollector st, maxe st, maxtrkid st).

Definition charge_view (st : Locals A) : RunMax :=
  (NumElectrons <$> fTrkIDECollector st, maxn st, maxntrkid st).

Definition energies (trkide_list : list (TrackIDE A)) : list (Z * flt A) :=
  (fun t => (trackID t, energy t)) <$> trkide_list.

Definition charges (trkide_list : list (TrackIDE A)) : list (Z * flt A) :=
  (fun t => (trackID t, numElectrons t)) <$> trkide_list.

(** What the maximum search needs of the arithmetic, on the values [fok]
    that a sum can take and the values [dok] that a maximum can take. *)
Record ArithLaws (fok : flt A -> Prop) (dok : dbl A -> Prop) : Prop := {
  fok_zero : fok (flt_zero A);
  fok_add : forall x y, fok x -> fok y -> fok (flt_add A x y);
  dok_to_dbl : forall x, fok x -> dok (to_dbl A x);
  dok_m1 : dok (dbl_m1 A);
  law_le_trans : forall a b c, dok a -> dok b -> dok c ->
    dbl_gt A a b = false -> dbl_gt A b c = false -> dbl_gt A a c = false;
  law_gt_asym : forall a b, dok a -> dok b ->
    dbl_gt A a b = true -> dbl_gt A b a = false;
  law_gt_m1 : forall x, fok x -> dbl_gt A (to_dbl A x) (dbl_m1 A) = true;
  law_add_mono : forall x y, fok x -> fok y ->
    dbl_gt A (to_dbl A x) (to_dbl A (flt_add A x y)) = false
}.

End Notions.

Arguments resolve mcpartList k : rename.
Arguments cache_ok mcpartList lk : rename.
Arguments collected {A} _.
Arguments assn_for {A} _ _ _ _.
Arguments hit_assns {A} _ _ _.
Arguments track_ids {A} _.
Arguments assns_of_hit {A} _ _.
Arguments total_energy {A} _.
Arguments total_charge {A} _.
Arguments event_assns {A Hit} _ _ _ _.
Arguments same_acc {A} _ _.
Arguments run_max_step {A} _ _ _.
Arguments run_max {A} _.
Arguments energy_view {A} _.
Arguments charge_view {A} _.
Arguments energies {A} _.
Arguments charges {A} _.

(** *** Notions of single statements *)

(** The associations flagged as the dominant one by energy, resp. charge. *)
Definition dominant_by_energy {A : Arith} (out : list (Assn A)) : list (Assn A) :=
  filter (fun a => isMaxIDE (data a) = true) out.

Definition dominant_by_charge {A : Arith} (out : list (Assn A)) : list (Assn A) :=
  filter (fun a => isMaxIDEN (data a) = true) out.

(** The statement of the specification: among the associations of a hit,
    if there is any, exactly one is flagged by energy and exactly one by
    charge. *)
Definition exactly_one_dominant {A : Arith} (out : list (Assn A)) : Prop :=
  out ≠ [] ->
  length (dominant_by_energy out) = 1%nat /\ length (dominant_by_charge out) = 1%nat.

(** The sums of the fractions of a list of associations. *)
Definition energy_fraction_sum {A : Arith} (out : list (Assn A)) : flt A :=
  fold_left (fun acc a => flt_add A acc (ideFraction (data a))) out (flt_zero A).

Definition charge_fraction_sum {A : Arith} (out : list (Assn A)) : flt A :=
  fold_left (fun acc a => flt_add A acc (ideNFraction (data a))) out (flt_zero A).

(** The element of track id [id] has sums that no element exceeds. *)
Definition energy_maximal {A : Arith} (st : Locals A) (id : Z) : Prop :=
  exists info,
    fTrkIDECollector st !! id = Some info /\
    forall k info', fTrkIDECollector st !! k = Some info' ->
      dbl_gt A (to_dbl A (E info')) (to_dbl A (E info)) = false.

Definition charge_maximal {A : Arith} (st : Locals A) (id : Z) : Prop :=
  exists info,
    fTrkIDECollector st !! id = Some info /\
    forall k info', fTrkIDECollector st !! k = Some info' ->
      dbl_gt A (to_dbl A (NumElectrons info')) (to_dbl A (NumElectrons info)) = false.

(** [maxtrkid] is the track id whose energy sum was the first to reach the
    final maximum: there is a record [t] of this id such that before [t]
    every sum was strictly below the final [maxe], and right after [t] the
    sum of its id was the final [maxe]. *)
Definition energy_first_to_reach {A : Arith} (trkide_list : list (TrackIDE A)) : Prop :=
  exists pre t post,
    trkide_list = pre ++ t :: post /\
    trackID t = maxtrkid (collected trkide_list) /\
    (forall k info, fTrkIDECollector (collected pre) !! k = Some info ->
       dbl_gt A (maxe (collected trkide_list)) (to_dbl A (E info)) = true) /\
    (exists info, fTrkIDECollector (collected (pre ++ [t])) !! trackID t = Some info /\
       to_dbl A (E info) = maxe (collected trkide_list)).

Definition charge_first_to_reach {A : Arith} (trkide_list : list (TrackIDE A)) : Prop :=
  exists pre t post,
    trkide_list = pre ++ t :: post /\
    trackID t = maxntrkid (collected trkide_list) /\
    (forall k info, fTrkIDECollector (collected pre) !! k = Some info ->
       dbl_gt A (maxn (collected trkide_list)) (to_dbl A (NumElectrons info)) = true) /\
    (exists info, fTrkIDECollector (collected (pre ++ [t])) !! trackID t = Some info /\
       to_dbl A (NumElectrons info) = maxn (collected trkide_list)).

(** The statement of the specification on ties: when a track id ends
    with the same energy sum as the one that holds the maximum, the holder
    occurs in the records before that id does. *)
Definition tie_goes_to_first_seen {A : Arith} (trkide_list : list (TrackIDE A)) : Prop :=
  forall k info info_max,
    fTrkIDECollector (collected trkide_list) !! k = Some info ->
    fTrkIDECollector (collected trkide_list) !! maxtrkid (collected trkide_list)
      = Some info_max ->
    E info = E info_max ->
    exists pre t post,
      trkide_list = pre ++ t :: post /\
      trackID t = maxtrkid (collected trkide_list) /\
      (forall t', t' ∈ pre -> trackID t' ≠ k).

(** Every sum is a good value, the maximum is a good value, and no sum
    exceeds the maximum. *)
Definition bounded_by_max {A : Arith} (fok : flt A -> Prop) (dok : dbl A -> Prop)
    (s : RunMax A) : Prop :=
  dok s.1.2 /\
  forall k v, s.1.1 !! k = Some v ->
    fok v /\ dbl_gt A (to_dbl A v) s.1.2 = false.

(** The sum of the recorded track id is not below the maximum. *)
Definition max_attained {A : Arith} (s : RunMax A) : Prop :=
  exists v, s.1.1 !! s.2 = Some v /\ dbl_gt A s.1.2 (to_dbl A v) = false.

(** The recorded track id is the one whose sum was the first to reach
    the final maximum: the record [kx] at which the maximum was last
    raised belongs to it, every sum was strictly below the final maximum
    before that record, and its own sum was the final maximum right
    after it. *)
Definition first_to_reach_max {A : Arith} (l : list (Z * flt A)) : Prop :=
  exists pre kx post,
    l = pre ++ kx :: post /\
    kx.1 = (run_max l).2 /\
    (forall k v, (run_max pre).1.1 !! k = Some v ->
       dbl_gt A (run_max l).1.2 (to_dbl A v) = true) /\
    (exists v, (run_max (pre ++ [kx])).1.1 !! kx.1 = Some v /\
       to_dbl A v = (run_max l).1.2).

(** ** Configuration: the constructor and [reconfigure] *)

Section Configuration.
(** [fhicl::ParameterSet] and its [get<art::InputTag>(key)]: the tag read
    under the key, or [None] where [get] throws (the key is absent, or its
    value is no input tag). *)
Variable ParameterSet : Type.
Variable InputTag : Type.
Variable get_InputTag : ParameterSet -> string -> option InputTag.

(** The two configured members of the module. *)
Record Labels := {
  fHitModuleLabel : InputTag;
  fMCParticleModuleLabel : InputTag
}.

(** How a member function ends: by returning or by an exception, and the
    members as it leaves them. *)
Inductive Ending :=
| Returned (m : Labels)
| Thrown (m : Labels).

(** [reconfigure], lines 96-100: two assignments, one after the other. *)
Definition reconfigure (p : ParameterSet) (m : Labels) : Ending :=
  match get_InputTag p "HitModuleLabel" with
  | None => Thrown m
  | Some hit =>
      let m1 := {| fHitModuleLabel := hit;
                   fMCParticleModuleLabel := fMCParticleModuleLabel m |} in
      match get_InputTag p "MCParticleModuleLabel" with
      | None => Thrown m1
      | Some mc =>
          Returned {| fHitModuleLabel := fHitModuleLabel m1;
                      fMCParticleModuleLabel := mc |}
      end
  end.

(** The constructor, lines 90-94, from default-constructed members: when
    [reconfigure] throws there is no module, otherwise the product is
    declared and the module exists with the members [reconfigure] left. *)
Definition construct (default_tag : InputTag) (p : ParameterSet) : option Labels :=
  match reconfigure p {| fHitModuleLabel := default_tag;
                         fMCParticleModuleLabel := default_tag |} with
  | Returned m => Some m
  | Thrown _ => None
  end.
End Configuration.

Arguments fHitModuleLabel {InputTag} _.
Arguments fMCParticleModuleLabel {InputTag} _.
Arguments Returned {InputTag} _.
Arguments Thrown {InputTag} _.
Arguments reconfigure {ParameterSet InputTag} _ _ _.
Arguments construct {ParameterSet InputTag} _ _ _.

(** A parameter set as a finite map from keys to tags, for examples. *)
Definition table_get (p : gmap string string) (key : string) : option string := p !! key.

Definition only_hit_label : gmap string string :=
  {[ "HitModuleLabel"%string := "gaushit"%string ]}.

Definition both_labels : gmap string string :=
  <[ "MCParticleModuleLabel"%string := "largeant"%string ]> only_hit_label.

Definition old_labels : Labels string :=
  {| fHitModuleLabel := "linecluster"%string; fMCParticleModuleLabel := "g4"%string |}.

(** ** Further notions *)

(** The energies, resp. charges, of the records of track id [k], in record
    order, added up in [float] from zero. *)
Definition track_energy_sum {A : Arith} (k : Z) (trkide_list : list (TrackIDE A)) : flt A :=
  fold_left (flt_add A) (energy <$> filter (fun t => trackID t = k) trkide_list)
    (flt_zero A).

Definition track_charge_sum {A : Arith} (k : Z) (trkide_list : list (TrackIDE A)) : flt A :=
  fold_left (flt_add A) (numElectrons <$> filter (fun t => trackID t = k) trkide_list)
    (flt_zero A).

(** What an association says about the energy, resp. the charge. *)
Definition energy_part {A : Arith} (a : Assn A) : nat * Z * flt A * bool * flt A :=
  (hit_key a, mcpart_key a, ideFraction (data a), isMaxIDE (data a), bt_energy (data a)).

Definition charge_part {A : Arith} (a : Assn A) : nat * Z * flt A * bool * flt A :=
  (hit_key a, mcpart_key a, ideNFraction (data a), isMaxIDEN (data a),
   bt_numElectrons (data a)).

(** A simulated event with neither collection. *)
Definition event_without_products : Event nat :=
  {| isRealData := false; mcparticles := None; hits := None |}.

(** Records with a NaN energy and a good charge. *)
Definition nan_records : list (TrackIDE IEEE) :=
  [ide 5 1 1; Build_TrackIDE IEEE 7 S754_nan (f32 2)].

(** The scenario of the specification with other charges. *)
Definition recharged_records : list (TrackIDE IEEE) :=
  [ide 5 3 9; ide 5 2 9; ide 7 4 1].

Definition recharged_bt (h : nat) : list (TrackIDE IEEE) :=
  match h with
  | O => recharged_records
  | _ => []
  end.

Definition nan_bt (h : nat) : list (TrackIDE IEEE) :=
  match h with
  | O => nan_records
  | _ => []
  end.

(** The energy part of the association written for the track id [ke.1]
    with energy sum [ke.2], when [s] is the result of the maximum search
    and [tot] the total energy of the hit. *)
Definition part_for {A : Arith} (mcpartList : list MCParticle) (i_h : nat)
    (s : RunMax A) (tot : dbl A) (ke : Z * flt A) : option (nat * Z * flt A * bool * flt A) :=
  if resolve mcpartList ke.1 =? -1 then None
  else Some (i_h, resolve mcpartList ke.1,
             to_flt A (dbl_div A (to_dbl A ke.2) tot),
             bool_decide (ke.1 = s.2), ke.2).

(** Lines 176-183: the association written for track id [k] of a hit at
    position [i_h] with records [trkide_list], from the sums of the
    records of that id. *)
Definition track_assn {A : Arith} (mcpartList : list MCParticle) (i_h : nat)
    (trkide_list : list (TrackIDE A)) (k : Z) : Assn A :=
  {| hit_key := i_h; mcpart_key := resolve mcpartList k;
     data :=
       {| ideFraction :=
            to_flt A (dbl_div A (to_dbl A (track_energy_sum k trkide_list))
                        (total_energy trkide_list));
          isMaxIDE := bool_decide (k = maxtrkid (collected trkide_list));
          ideNFraction :=
            to_flt A (dbl_div A (to_dbl A (track_charge_sum k trkide_list))
                        (total_charge trkide_list));
          isMaxIDEN := bool_decide (k = maxntrkid (collected trkide_list));
          bt_energy := track_energy_sum k trkide_list;
          bt_numElectrons := track_charge_sum k trkide_list |} |}.

(** The total of a hit, from the list of pairs of track id and amount. *)
Definition total_of {A : Arith} (l : list (Z * flt A)) : dbl A :=
  fold_left (fun acc kx => dbl_add A acc (to_dbl A kx.2)) l (dbl_zero A).

(** A hit with a single record, and a hit whose records have neither
    energy nor charge. *)
Definition single_records : list (TrackIDE IEEE) := [ide 5 3 2].

Definition single_bt (h : nat) : list (TrackIDE IEEE) :=
  match h with
  | O => single_records
  | _ => []
  end.


(** Three records of one track whose sum is rounded in [float] and exact
    in [double]. *)
Definition rounded_records : list (TrackIDE IEEE) :=
  [ide 5 16777216 1; ide 5 3 1; ide 5 3 1].

Definition rounded_bt (h : nat) : list (TrackIDE IEEE) :=
  match h with
  | O => rounded_records
  | _ => []
  end.

(** What [produce] puts for one hit with [rounded_records] and
    [scenario_particles]: the [float] sum is 16777224, the [double] total
    is 16777222, and the energy fraction is 1 + 2^-23. *)
Definition rounded_out : list (Assn IEEE) :=
  [ Build_Assn IEEE 0 1
      (Build_BackTrackerHitMatchingData IEEE
         (S754_finite false 8388609 (-23)) true
         (S754_finite false 8388608 (-23)) true
         (S754_finite false 8388612 1) (f32 3)) ].

(** ** The order of the loop on the collector

    The range-for of line 173 visits [fTrkIDECollector] in the order of
    the container.  The language leaves this order unspecified: it depends
    on the bucket count and so on the insertions of the earlier hits,
    which [clear()] does not undo.  [assn_loop] above visits the elements
    in the order of [map_to_list].  Here the order is a parameter:
    [visit i_h c] is the sequence in which the collector [c] is visited in
    the iteration for the hit at position [i_h].  Nothing else differs
    from [produce]. *)
Section Visit.
Variable A : Arith.
Variable Hit : Type.
Variable HitToTrackID : Hit -> list (TrackIDE A).
Variable visit : nat -> gmap Z (TrackIDEinfo A) -> list (Z * TrackIDEinfo A).

(** Lines 173-184. *)
Definition assn_loop_in (i_h : nat) (st : Locals A) : Locals A :=
  fold_left (assn_body A i_h) (visit i_h (fTrkIDECollector st)) st.

(** Lines 138-184. *)
Definition hit_body_in (mcpartList : list MCParticle) (i_h : nat) (h : Hit)
    (st : Locals A) : Locals A :=
  assn_loop_in i_h (trkide_loop A mcpartList (HitToTrackID h) (reset A st)).

(** Lines 137-186, from hit position [i_h] on. *)
Fixpoint hit_loop_in (mcpartList : list MCParticle) (i_h : nat)
    (hitList : list Hit) (st : Locals A) : Locals A :=
  match hitList with
  | [] => st
  | h :: rest => hit_loop_in mcpartList (S i_h) rest (hit_body_in mcpartList i_h h st)
  end.

(** [t0::MCParticleHitMatching::produce], lines 106-189. *)
Definition produce_in (evt : Event Hit) : Outcome A :=
  if isRealData evt then Returns {| cerr := []; put := None |}
  else
    match mcparticles evt with
    | None => Throws_ProductNotFound
    | Some mcpartList =>
        match hits evt with
        | None =>
            Returns {| cerr := ["Hit handle is not valid!"%string]; put := None |}
        | Some hitList =>
            Returns {| cerr := [];
                       put := Some (MCPartHitassn
                                      (hit_loop_in mcpartList 0 hitList (initial A))) |}
        end
    end.

(** The associations written for the hit at position [i_h] whose records
    are [trkide_list], in the order of [visit]. *)
Definition hit_assns_in (mcpartList : list MCParticle) (i_h : nat)
    (trkide_list : list (TrackIDE A)) : list (Assn A) :=
  omap (assn_for mcpartList i_h (collected trkide_list))
       (visit i_h (fTrkIDECollector (collected trkide_list))).

(** The associations of all hits from position [i_h] on. *)
Fixpoint event_assns_in (mcpartList : list MCParticle) (i_h : nat)
    (hitList : list Hit) : list (Assn A) :=
  match hitList with
  | [] => []
  | h :: rest =>
      hit_assns_in mcpartList i_h (HitToTrackID h) ++
      event_assns_in mcpartList (S i_h) rest
  end.
End Visit.

(** What the language does guarantee of the order: every element of the
    container is visited, and visited once. *)
Definition visits_all {A : Arith}
    (visit : nat -> gmap Z (TrackIDEinfo A) -> list (Z * TrackIDEinfo A)) : Prop :=
  forall i_h c, visit i_h c ≡ₚ map_to_list c.

(** Two orders for examples: the one of [assn_loop], and one that changes
    from hit to hit. *)
Definition in_map_order {A : Arith} (i_h : nat) (c : gmap Z (TrackIDEinfo A)) :
    list (Z * TrackIDEinfo A) :=
  map_to_list c.

Definition alternating {A : Arith} (i_h : nat) (c : gmap Z (TrackIDEinfo A)) :
    list (Z * TrackIDEinfo A) :=
  if Nat.even i_h then reverse (map_to_list c) else map_to_list c.

(** ** The model at work *)

(** Promotion and narrowing agree with the rounding of [SpecFloat] on
    sample values, and [-1] is the literal it should be. *)
Example promote_is_rounding :
  Ieee.promote (f32 3) = binary_round 53 1024 false 3 0 /\
  Ieee.promote (S754_finite false 1 (-149)) = binary_round 53 1024 false 1 (-149) /\
  Ieee.narrow (Ieee.promote (f32 3)) = f32 3 /\
  Ieee.minus_one = binary_round 53 1024 true 1 0.
Proof. repeat split. Qed.

(** The scenario of the specification: track 5 has energy 3 + 2 = 5 and is
    dominant by energy, track 7 has charge 5 and is dominant by charge;
    the totals are 9 and 7.  (Particle 7 is at position 0, particle 5 at
    position 1.) *)
Example scenario_of_the_specification :
  (fun a : Assn IEEE =>
     (hit_key a, mcpart_key a, isMaxIDE (data a), isMaxIDEN (data a),
      bt_energy (data a), bt_numElectrons (data a)))
    <$> hit_assns scenario_particles 0 scenario_records =
  [ (0%nat, 0, false, true, f32 4, f32 5);
    (0%nat, 1, true, false, f32 5, f32 2) ] /\
  total_energy scenario_records = Ieee.promote (f32 9) /\
  total_charge scenario_records = Ieee.promote (f32 7).
Proof. repeat split. Qed.

(** Rounding alone keeps the fractions of a hit from adding up to 1: the
    only track id of [rounded_records] resolves, and its energy fraction
    is above 1. *)
Example rounding_of_the_sums :
  produce IEEE nat rounded_bt (simulated_event scenario_particles 1) =
    Returns {| cerr := []; put := Some rounded_out |} /\
  SFcompare (energy_fraction_sum rounded_out) (f32 1) = Some Gt.
Proof. split; reflexivity. Qed.

(** ** The particle scan *)

Lemma scan_shift (ps : list MCParticle) (k : Z) (i : nat) :
  scan ps k (S i) = S <$> scan ps k i.
Proof.
  revert i. induction ps as [|p ps IH]; intros i; simpl; [done|].
  destruct (TrackId p =? k); [done|]. apply IH.
Qed.

Lemma scan_None (ps : list MCParticle) (k : Z) (i : nat) :
  scan ps k i = None <-> (forall p, p ∈ ps -> TrackId p ≠ k).
Proof.
  revert i. induction ps as [|p ps IH]; intros i; simpl.
  - split; [|done]. intros _ p Hp. by apply elem_of_nil in Hp.
  - destruct (Z.eqb_spec (TrackId p) k) as [Heq|Hne].
    + split; [done|]. intros H. exfalso. apply (H p); [left|done].
    + rewrite IH. split.
      * intros H q Hq. apply elem_of_cons in Hq as [->|Hq]; auto.
      * intros H q Hq. apply H. by right.
Qed.

(** A successful scan stops at the first particle that carries the id. *)
Lemma scan_Some (ps : list MCParticle) (k : Z) (j : nat) :
  scan ps k 0 = Some j <->
  (exists p, ps !! j = Some p /\ TrackId p = k) /\
  (forall n q, (n < j)%nat -> ps !! n = Some q -> TrackId q ≠ k).
Proof.
  revert j. induction ps as [|p ps IH]; intros j; simpl.
  - split; [done|]. intros [(q & Hq & _) _]. done.
  - destruct (Z.eqb_spec (TrackId p) k) as [Heq|Hne].
    + split.
      * intros [= <-]. split; [by exists p|]. intros n q Hn. lia.
      * intros [(q & Hq & Hk) Hfirst]. destruct j as [|j]; [done|].
        exfalso. apply (Hfirst 0%nat p); [lia|done|done].
    + rewrite scan_shift. split.
      * intros Hs. destruct (scan ps k 0) as [j'|] eqn:Hj'; [|done].
        simpl in Hs. injection Hs as <-.
        destruct (proj1 (IH j') eq_refl) as [(q & Hq & Hk) Hfirst].
        split; [by exists q|].
        intros [|n] q' Hn Hq'; simpl in Hq'.
        -- by injection Hq' as <-.
        -- apply (Hfirst n q'); [lia|done].
      * intros [(q & Hq & Hk) Hfirst]. destruct j as [|j].
        { simpl in Hq. injection Hq as <-. done. }
        simpl in Hq.
        assert (scan ps k 0 = Some j) as ->; [|done].
        apply IH. split; [by exists q|].
        intros n q' Hn Hq'. apply (Hfirst (S n) q'); [lia|done].
Qed.

Lemma scan_lt (ps : list MCParticle) (k : Z) (j : nat) :
  scan ps k 0 = Some j -> (j < length ps)%nat.
Proof.
  intros [(p & Hp & _) _]%scan_Some. by eapply lookup_lt_Some.
Qed.

Lemma int_of_size_t_small (i : nat) :
  Z.of_nat i < 2 ^ 31 -> int_of_size_t i = Z.of_nat i.
Proof.
  intros Hi. unfold int_of_size_t.
  rewrite Z.mod_small by lia.
  destruct (Z.ltb_spec (Z.of_nat i) (2 ^ 31)); lia.
Qed.

(** With fewer than 2^31 particles, a track id resolves to [-1] exactly
    when no particle carries it, and otherwise to the first position. *)
Lemma resolve_None (ps : list MCParticle) (k : Z) :
  (forall p, p ∈ ps -> TrackId p ≠ k) -> resolve ps k = -1.
Proof. intros H. unfold resolve. by apply (scan_None ps k 0%nat) in H as ->. Qed.

Lemma resolve_Some (ps : list MCParticle) (k : Z) :
  Z.of_nat (length ps) <= 2 ^ 31 ->
  (exists p, p ∈ ps /\ TrackId p = k) ->
  exists j, scan ps k 0 = Some j /\ resolve ps k = Z.of_nat j /\ resolve ps k ≠ -1.
Proof.
  intros Hlen (p & Hp & Hk). unfold resolve.
  destruct (scan ps k 0) as [j|] eqn:Hs.
  - exists j. pose proof (scan_lt _ _ _ Hs).
    rewrite int_of_size_t_small by lia. split_and!; [done|done|lia].
  - exfalso. rewrite scan_None in Hs. by apply (Hs p).
Qed.

(** ** Structure of the loop on the contribution records *)

Section Structure.
Variable A : Arith.
Implicit Types (st : Locals A) (t : TrackIDE A) (ps : list MCParticle).
Implicit Types (recs : list (TrackIDE A)).

Lemma same_acc_refl st : same_acc st st.
Proof. by repeat split. Qed.

Lemma trkide_body_assn ps st t :
  MCPartHitassn (trkide_body A ps st t) = MCPartHitassn st.
Proof.
  unfold trkide_body, find_mcparticle. simpl.
  by destruct (trkid_lookup st !! trackID t).
Qed.

Lemma trkide_body_lookup ps st t :
  trkid_lookup (trkide_body A ps st t) =
  match trkid_lookup st !! trackID t with
  | Some _ => trkid_lookup st
  | None => <[trackID t := resolve ps (trackID t)]> (trkid_lookup st)
  end.
Proof.
  unfold trkide_body, find_mcparticle. simpl.
  by destruct (trkid_lookup st !! trackID t).
Qed.

Lemma find_mcparticle_same_acc ps st t : same_acc (find_mcparticle A ps st t) st.
Proof.
  unfold find_mcparticle.
  destruct (trkid_lookup st !! trackID t); by repeat split.
Qed.

Lemma trkide_body_same_acc ps ps' st st' t :
  same_acc st st' ->
  same_acc (trkide_body A ps st t) (trkide_body A ps' st' t).
Proof.
  intros (He & Hte & Hk & Hn & Htn & Hkn & Hc).
  unfold same_acc, trkide_body.
  destruct (find_mcparticle_same_acc ps (add_charge A (add_energy A st t) t) t)
    as (-> & -> & -> & -> & -> & -> & ->).
  destruct (find_mcparticle_same_acc ps' (add_charge A (add_energy A st' t) t) t)
    as (-> & -> & -> & -> & -> & -> & ->).
  unfold add_charge, add_energy; simpl.
  rewrite He, Hte, Hk, Hn, Htn, Hkn, Hc. by repeat split.
Qed.

Lemma trkide_loop_cons ps t recs st :
  trkide_loop A ps (t :: recs) st = trkide_loop A ps recs (trkide_body A ps st t).
Proof. reflexivity. Qed.

Lemma trkide_loop_same_acc ps ps' recs st st' :
  same_acc st st' ->
  same_acc (trkide_loop A ps recs st) (trkide_loop A ps' recs st').
Proof.
  revert st st'. induction recs as [|t recs IH]; intros st st' H; simpl; [done|].
  apply IH. by apply trkide_body_same_acc.
Qed.

Lemma trkide_loop_assn ps recs st :
  MCPartHitassn (trkide_loop A ps recs st) = MCPartHitassn st.
Proof.
  revert st. induction recs as [|t recs IH]; intros st; [done|].
  by rewrite trkide_loop_cons, IH, trkide_body_assn.
Qed.

Lemma trkide_loop_snoc ps recs t st :
  trkide_loop A ps (recs ++ [t]) st = trkide_body A ps (trkide_loop A ps recs st) t.
Proof. unfold trkide_loop. by rewrite fold_left_app. Qed.

(** The cache only grows, and only by fresh look-ups. *)
Lemma trkide_body_cache_ok ps st t :
  cache_ok ps (trkid_lookup st) ->
  cache_ok ps (trkid_lookup (trkide_body A ps st t)).
Proof.
  intros Hok. rewrite trkide_body_lookup.
  destruct (trkid_lookup st !! trackID t) eqn:Hl; [done|].
  intros k v. rewrite lookup_insert. case_decide as Hk.
  - intros [= <-]. by subst k.
  - apply Hok.
Qed.

Lemma trkide_loop_cache_ok ps recs st :
  cache_ok ps (trkid_lookup st) ->
  cache_ok ps (trkid_lookup (trkide_loop A ps recs st)).
Proof.
  revert st. induction recs as [|t recs IH]; intros st H; simpl; [done|].
  apply IH. by apply trkide_body_cache_ok.
Qed.

Lemma trkide_body_lookup_mono ps st t k :
  is_Some (trkid_lookup st !! k) ->
  is_Some (trkid_lookup (trkide_body A ps st t) !! k).
Proof.
  intros Hk. rewrite trkide_body_lookup.
  destruct (trkid_lookup st !! trackID t) eqn:Hl; [done|].
  rewrite lookup_insert. case_decide; [by eexists|done].
Qed.

Lemma trkide_loop_lookup_mono ps recs st k :
  is_Some (trkid_lookup st !! k) ->
  is_Some (trkid_lookup (trkide_loop A ps recs st) !! k).
Proof.
  revert st. induction recs as [|t recs IH]; intros st H; simpl; [done|].
  apply IH. by apply trkide_body_lookup_mono.
Qed.

(** After the loop every track id of the records is in the cache. *)
Lemma trkide_loop_lookup_dom ps recs st t :
  t ∈ recs ->
  is_Some (trkid_lookup (trkide_loop A ps recs st) !! trackID t).
Proof.
  revert st. induction recs as [|t' recs IH]; intros st Ht; simpl.
  - by apply elem_of_nil in Ht.
  - apply elem_of_cons in Ht as [->|Ht]; [|by apply IH].
    apply trkide_loop_lookup_mono. rewrite trkide_body_lookup.
    destruct (trkid_lookup st !! trackID t') eqn:Hl; [by rewrite Hl|].
    rewrite lookup_insert_eq. by eexists.
Qed.

Lemma trkide_body_collector_dom ps st t :
  dom (fTrkIDECollector (trkide_body A ps st t)) =
  {[trackID t]} ∪ dom (fTrkIDECollector st).
Proof.
  destruct (find_mcparticle_same_acc ps (add_charge A (add_energy A st t) t) t)
    as (_ & _ & _ & _ & _ & _ & Hc).
  unfold trkide_body. rewrite Hc. simpl.
  rewrite !dom_insert_L. apply set_eq. intros x. set_unfold. tauto.
Qed.

Lemma trkide_loop_collector_dom ps recs st :
  dom (fTrkIDECollector (trkide_loop A ps recs st)) =
  track_ids recs ∪ dom (fTrkIDECollector st).
Proof.
  revert st. induction recs as [|t recs IH]; intros st.
  - unfold track_ids. simpl. apply set_eq. intros x. set_unfold. tauto.
  - rewrite trkide_loop_cons, IH, trkide_body_collector_dom.
    unfold track_ids. simpl. apply set_eq. intros x. set_unfold. tauto.
Qed.

Lemma collected_dom recs :
  dom (fTrkIDECollector (collected recs)) = track_ids recs.
Proof.
  unfold collected. rewrite trkide_loop_collector_dom. simpl.
  apply set_eq. intros x. set_unfold. tauto.
Qed.

Lemma elem_of_track_ids recs k :
  k ∈ track_ids recs <-> exists t, t ∈ recs /\ trackID t = k.
Proof.
  unfold track_ids. rewrite elem_of_list_to_set, list_elem_of_fmap.
  split; [intros (t & -> & ?)|intros (t & ? & <-)]; by exists t.
Qed.
End Structure.

(** ** Structure of the loop on the collector and of the loop on hits *)

Section Emission.
Variable A : Arith.
Implicit Types (st : Locals A) (t : TrackIDE A) (ps : list MCParticle).
Implicit Types (recs : list (TrackIDE A)) (kv : Z * TrackIDEinfo A).

Lemma omap_pointwise {X Y} (f g : X -> option Y) (l : list X) :
  (forall x, f x = g x) -> omap f l = omap g l.
Proof. intros H. induction l as [|x l IH]; [done|]. csimpl. by rewrite H, IH. Qed.

Lemma bthmd_same_acc st st' kv : same_acc st st' -> bthmd A st kv = bthmd A st' kv.
Proof.
  intros (_ & Hte & Hk & _ & Htn & Hkn & _). unfold bthmd.
  by rewrite Hte, Hk, Htn, Hkn.
Qed.

Lemma assn_for_same_acc ps i_h st st' kv :
  same_acc st st' -> assn_for ps i_h st kv = assn_for ps i_h st' kv.
Proof.
  intros H. unfold assn_for. by rewrite (bthmd_same_acc st st' kv H).
Qed.

(** One iteration on an element whose track id is cached. *)
Lemma assn_body_cached ps i_h st kv :
  cache_ok ps (trkid_lookup st) ->
  is_Some (trkid_lookup st !! kv.1) ->
  same_acc (assn_body A i_h st kv) st /\
  trkid_lookup (assn_body A i_h st kv) = trkid_lookup st /\
  MCPartHitassn (assn_body A i_h st kv) =
    MCPartHitassn st ++ option_list (assn_for ps i_h st kv).
Proof.
  intros Hok [v Hv]. unfold assn_body, assn_for. rewrite Hv. simpl.
  rewrite <- (Hok _ _ Hv).
  split_and!; [by repeat split|done|].
  destruct (v =? -1); simpl; [by rewrite app_nil_r|done].
Qed.

Lemma assn_fold_spec ps i_h (l : list (Z * TrackIDEinfo A)) st :
  cache_ok ps (trkid_lookup st) ->
  (forall kv, kv ∈ l -> is_Some (trkid_lookup st !! kv.1)) ->
  same_acc (fold_left (assn_body A i_h) l st) st /\
  trkid_lookup (fold_left (assn_body A i_h) l st) = trkid_lookup st /\
  MCPartHitassn (fold_left (assn_body A i_h) l st) =
    MCPartHitassn st ++ omap (assn_for ps i_h st) l.
Proof.
  revert st. induction l as [|kv l IH]; intros st Hok Hin; simpl.
  - split_and!; [apply same_acc_refl|done|by rewrite app_nil_r].
  - destruct (assn_body_cached ps i_h st kv Hok) as (Hacc & Hlk & Hout).
    { apply Hin. by left. }
    destruct (IH (assn_body A i_h st kv)) as (Hacc' & Hlk' & Hout').
    { by rewrite Hlk. }
    { intros kv' Hkv'. rewrite Hlk. apply Hin. by right. }
    split_and!.
    + destruct Hacc as (?&?&?&?&?&?&?), Hacc' as (?&?&?&?&?&?&?).
      repeat split; congruence.
    + congruence.
    + rewrite Hout', Hout, <- app_assoc. f_equal.
      rewrite (omap_pointwise _ (assn_for ps i_h st)) by (intros; by apply assn_for_same_acc).
      by destruct (assn_for ps i_h st kv).
Qed.

(** The state in which the loop on the collector starts has the
    accumulators of [collected]. *)
Lemma reset_same_acc st : same_acc (reset A st) (initial A).
Proof. by repeat split. Qed.

Lemma trkide_loop_reset ps recs st :
  same_acc (trkide_loop A ps recs (reset A st)) (collected recs).
Proof. apply trkide_loop_same_acc, reset_same_acc. Qed.

Section Hits.
Variable Hit : Type.
Variable HitToTrackID : Hit -> list (TrackIDE A).

Lemma hit_body_spec ps i_h h st :
  cache_ok ps (trkid_lookup st) ->
  cache_ok ps (trkid_lookup (hit_body A Hit HitToTrackID ps i_h h st)) /\
  MCPartHitassn (hit_body A Hit HitToTrackID ps i_h h st) =
    MCPartHitassn st ++ hit_assns ps i_h (HitToTrackID h).
Proof.
  intros Hok. unfold hit_body, assn_loop.
  set (st1 := trkide_loop A ps (HitToTrackID h) (reset A st)).
  assert (cache_ok ps (trkid_lookup st1)) as Hok1
    by (by apply trkide_loop_cache_ok).
  pose proof (trkide_loop_reset ps (HitToTrackID h) st) as Hacc. fold st1 in Hacc.
  destruct (assn_fold_spec ps i_h (map_to_list (fTrkIDECollector st1)) st1 Hok1)
    as (_ & Hlk & Hout).
  { intros [k info] Hkv. simpl.
    apply elem_of_map_to_list in Hkv.
    assert (k ∈ dom (fTrkIDECollector st1)) as Hdom by (apply elem_of_dom; eauto).
    unfold st1 in Hdom. rewrite trkide_loop_collector_dom in Hdom. simpl in Hdom.
    rewrite dom_empty_L, union_empty_r_L in Hdom.
    apply elem_of_track_ids in Hdom as (t & Ht & <-).
    by apply trkide_loop_lookup_dom. }
  split; [by rewrite Hlk|].
  rewrite Hout. unfold st1 at 1. rewrite trkide_loop_assn. simpl. f_equal.
  unfold hit_assns. destruct Hacc as (_&_&_&_&_&_&Hc). rewrite <- Hc.
  apply omap_pointwise. intros. by apply assn_for_same_acc, trkide_loop_reset.
Qed.

(** The loop on hits, without the cache. *)
Lemma hit_loop_spec ps i_h hitList st :
  cache_ok ps (trkid_lookup st) ->
  MCPartHitassn (hit_loop A Hit HitToTrackID ps i_h hitList st) =
    MCPartHitassn st ++ event_assns HitToTrackID ps i_h hitList.
Proof.
  revert i_h st. induction hitList as [|h rest IH]; intros i_h st Hok; simpl.
  - by rewrite app_nil_r.
  - destruct (hit_body_spec ps i_h h st Hok) as (Hok' & Hout).
    by rewrite IH, Hout, app_assoc.
Qed.

Lemma cache_ok_empty ps : cache_ok ps ∅.
Proof. intros k v. by rewrite lookup_empty. Qed.

Lemma produce_put ps hitList :
  produce A Hit HitToTrackID
    {| isRealData := false; mcparticles := Some ps; hits := Some hitList |} =
  Returns {| cerr := []; put := Some (event_assns HitToTrackID ps 0 hitList) |}.
Proof.
  unfold produce. simpl. do 3 f_equal.
  by rewrite hit_loop_spec by apply cache_ok_empty.
Qed.
End Hits.
End Emission.

(** ** Rounding in [SpecFloat]: what the accumulation needs *)

Lemma digits2_pos_log2 (m : positive) :
  Z.pos (digits2_pos m) = Z.log2 (Z.pos m) + 1.
Proof.
  assert (H : forall p, digits2_pos p = Pos.size p).
  { induction p; simpl; congruence. }
  rewrite H. destruct m; simpl; lia.
Qed.

Lemma digits2_pos_bounds (m : positive) :
  2 ^ (Z.pos (digits2_pos m) - 1) <= Z.pos m < 2 ^ Z.pos (digits2_pos m).
Proof.
  rewrite digits2_pos_log2.
  pose proof (Z.log2_spec (Z.pos m) ltac:(lia)) as H.
  replace (Z.log2 (Z.pos m) + 1 - 1) with (Z.log2 (Z.pos m)) by lia.
  replace (Z.log2 (Z.pos m) + 1) with (Z.succ (Z.log2 (Z.pos m))) by lia. exact H.
Qed.

Lemma digits2_pos_mono (a b : positive) :
  (a <= b)%positive -> Z.pos (digits2_pos a) <= Z.pos (digits2_pos b).
Proof.
  intros H. rewrite !digits2_pos_log2.
  pose proof (Z.log2_le_mono (Z.pos a) (Z.pos b) ltac:(lia)). lia.
Qed.

Lemma iter_xO (m d : positive) : Z.pos (Pos.iter xO m d) = Z.pos m * 2 ^ Z.pos d.
Proof.
  induction d using Pos.peano_ind.
  - simpl. lia.
  - rewrite Pos.iter_succ, Pos2Z.inj_succ, Z.pow_succ_r by lia.
    rewrite Pos2Z.inj_xO, IHd. lia.
Qed.

Lemma shl_align_spec (m : positive) (e e' : Z) :
  snd (shl_align m e e') = Z.min e e' /\
  Z.pos (fst (shl_align m e e')) = Z.pos m * 2 ^ (e - Z.min e e').
Proof.
  unfold shl_align. destruct (e' - e) as [|d|d] eqn:Hd; simpl.
  - replace (Z.min e e') with e by lia. rewrite Z.sub_diag. simpl. lia.
  - replace (Z.min e e') with e by lia. rewrite Z.sub_diag. simpl. lia.
  - replace (Z.min e e') with e' by lia. split; [done|].
    rewrite iter_xO. f_equal. f_equal. lia.
Qed.

Lemma digits2_pos_shift (m m' : positive) (k : Z) :
  0 <= k -> Z.pos m' = Z.pos m * 2 ^ k ->
  Z.pos (digits2_pos m') = Z.pos (digits2_pos m) + k.
Proof.
  intros Hk H. rewrite !digits2_pos_log2, H.
  rewrite Z.log2_mul_pow2 by lia. lia.
Qed.

Lemma shr_1_m (mrs : shr_record) :
  0 <= shr_m mrs -> shr_m (shr_1 mrs) = shr_m mrs / 2.
Proof.
  destruct mrs as [m r s]. simpl. intros Hm.
  rewrite <- Z.div2_div.
  destruct m as [|[p|p|]|p]; simpl; try reflexivity; lia.
Qed.

Lemma iter_shr_1_m (p : positive) (mrs : shr_record) :
  0 <= shr_m mrs ->
  shr_m (SpecFloat.iter_pos shr_1 p mrs) = shr_m mrs / 2 ^ Z.pos p.
Proof.
  revert mrs. induction p as [p IH|p IH|]; intros mrs Hm; simpl SpecFloat.iter_pos.
  - assert (0 <= shr_m (shr_1 mrs)) by (rewrite shr_1_m by lia; apply Z.div_pos; lia).
    assert (0 <= shr_m (SpecFloat.iter_pos shr_1 p (shr_1 mrs)))
      by (rewrite IH by lia; apply Z.div_pos; [lia|apply Z.pow_pos_nonneg; lia]).
    rewrite IH, IH, shr_1_m by lia.
    rewrite !Z.div_div by (try apply Z.pow_pos_nonneg; lia).
    f_equal. rewrite <- Z.pow_add_r, <- (Z.pow_add_r 2 1) by lia. f_equal. lia.
  - assert (0 <= shr_m (SpecFloat.iter_pos shr_1 p mrs))
      by (rewrite IH by lia; apply Z.div_pos; [lia|apply Z.pow_pos_nonneg; lia]).
    rewrite IH, IH by lia.
    rewrite !Z.div_div by (try apply Z.pow_pos_nonneg; lia).
    f_equal. rewrite <- Z.pow_add_r by lia. f_equal. lia.
  - rewrite shr_1_m by lia. reflexivity.
Qed.

Lemma shr_spec (mrs : shr_record) (e n : Z) :
  0 <= shr_m mrs -> 0 <= n ->
  snd (shr mrs e n) = e + n /\ shr_m (fst (shr mrs e n)) = shr_m mrs / 2 ^ n.
Proof.
  intros Hm Hn. unfold shr. destruct n as [|p|p]; simpl; try lia.
  - rewrite Z.div_1_r. lia.
  - split; [reflexivity|]. apply iter_shr_1_m. lia.
Qed.

Lemma digits2_pos_div (m q : positive) (n : Z) :
  0 <= n -> Z.pos q = Z.pos m / 2 ^ n ->
  Z.pos (digits2_pos q) = Z.pos (digits2_pos m) - n.
Proof.
  intros Hn Hq. rewrite !digits2_pos_log2, Hq.
  rewrite <- Z.shiftr_div_pow2 by lia.
  rewrite Z.log2_shiftr by lia.
  assert (n <= Z.log2 (Z.pos m)); [|lia].
  destruct (Z.le_gt_cases n (Z.log2 (Z.pos m))) as [|Hlt]; [done|].
  exfalso.
  assert (Z.pos m < 2 ^ n) as Hsmall.
  { apply Z.log2_lt_pow2; lia. }
  rewrite Z.div_small in Hq by lia. lia.
Qed.

Lemma round_nearest_even_bounds (q : Z) (l : location) :
  q <= round_nearest_even q l <= q + 1.
Proof.
  unfold round_nearest_even.
  destruct l as [|[]]; try destruct (Z.even q); lia.
Qed.

Lemma shr_record_of_loc_m (m : Z) (l : location) : shr_m (shr_record_of_loc m l) = m.
Proof. by destruct l as [|[]]. Qed.

Section Round.
Variables prec emax : Z.
Hypothesis Hprec : 0 < prec.

Lemma fexp_mono (a b : Z) : a <= b -> fexp prec emax a <= fexp prec emax b.
Proof. unfold fexp. lia. Qed.

Lemma fexp_step (a b : Z) :
  a <= b <= a + 1 -> fexp prec emax a <= fexp prec emax b <= fexp prec emax a + 1.
Proof. unfold fexp. lia. Qed.

Lemma fexp_ge_emin (a : Z) : emin prec emax <= fexp prec emax a.
Proof. unfold fexp. lia. Qed.

Lemma fexp_lt (a : Z) : emin prec emax < a -> fexp prec emax a < a.
Proof. unfold fexp. lia. Qed.

Lemma shr_fexp_spec (m : positive) (e : Z) (l : location) :
  e <= fexp prec emax (Z.pos (digits2_pos m) + e) ->
  snd (shr_fexp prec emax (Z.pos m) e l) = fexp prec emax (Z.pos (digits2_pos m) + e) /\
  shr_m (fst (shr_fexp prec emax (Z.pos m) e l)) =
    Z.pos m / 2 ^ (fexp prec emax (Z.pos (digits2_pos m) + e) - e).
Proof.
  intros He. unfold shr_fexp. simpl Zdigits2.
  destruct (shr_spec (shr_record_of_loc (Z.pos m) l) e
              (fexp prec emax (Z.pos (digits2_pos m) + e) - e)) as [H1 H2].
  { rewrite shr_record_of_loc_m. lia. }
  { lia. }
  rewrite H1, H2, shr_record_of_loc_m. split; [lia|done].
Qed.

(** The quotient of a mantissa by the shift that brings it to its
    canonical exponent is positive. *)
Lemma shifted_pos (m : positive) (n : Z) :
  0 <= n < Z.pos (digits2_pos m) -> 1 <= Z.pos m / 2 ^ n.
Proof.
  intros Hn. pose proof (digits2_pos_bounds m) as [Hlo _].
  apply Z.div_le_lower_bound; [apply Z.pow_pos_nonneg; lia|].
  rewrite Z.mul_1_r. etrans; [|exact Hlo].
  apply Z.pow_le_mono_r; lia.
Qed.

Lemma binary_round_aux_spec (M : positive) (e0 : Z) (l : location) :
  let D := Z.pos (digits2_pos M) + e0 in
  e0 <= fexp prec emax D -> emin prec emax < D ->
  binary_round_aux prec emax false (Z.pos M) e0 l = S754_infinity false \/
  exists m e,
    binary_round_aux prec emax false (Z.pos M) e0 l = S754_finite false m e /\
    bounded prec emax m e = true /\
    fexp prec emax D <= e /\
    (e = fexp prec emax D -> Z.pos M / 2 ^ (fexp prec emax D - e0) <= Z.pos m).
Proof.
  intros D He0 HD. unfold binary_round_aux.
  destruct (shr_fexp_spec M e0 l He0) as [He' Hq].
  destruct (shr_fexp prec emax (Z.pos M) e0 l) as [mrs' e']. simpl in He', Hq.
  fold D in He', Hq. subst e'.
  pose proof (fexp_lt D HD) as HltD.
  assert (1 <= shr_m mrs') as Hq1.
  { rewrite Hq. apply shifted_pos. unfold D in *. lia. }
  pose proof (round_nearest_even_bounds (shr_m mrs') (loc_of_shr_record mrs')) as Hm1.
  destruct (round_nearest_even (shr_m mrs') (loc_of_shr_record mrs')) as [|p1|p1] eqn:Hp1;
    [lia| |lia].
  destruct (shr_m mrs') as [|pq|pq] eqn:Hpq; [lia| |lia].
  (* digits of the quotient and of the rounded mantissa *)
  assert (Z.pos (digits2_pos pq) + fexp prec emax D = D) as Hdq.
  { rewrite (digits2_pos_div M pq (fexp prec emax D - e0)) by (done || lia).
    unfold D. lia. }
  assert (Z.pos (digits2_pos pq) <= Z.pos (digits2_pos p1) <= Z.pos (digits2_pos pq) + 1)
    as Hd1.
  { split; [apply digits2_pos_mono; lia|].
    replace (Z.pos (digits2_pos pq) + 1) with (Z.pos (digits2_pos (pq~0)))
      by (simpl; lia).
    apply digits2_pos_mono. lia. }
  pose proof (fexp_step D (Z.pos (digits2_pos p1) + fexp prec emax D) ltac:(lia)) as Hn2.
  destruct (shr_fexp_spec p1 (fexp prec emax D) loc_Exact ltac:(lia)) as [He'' Hm''].
  destruct (shr_fexp prec emax (Z.pos p1) (fexp prec emax D) loc_Exact) as [mrs'' e''].
  simpl in He'', Hm''.
  set (e2 := fexp prec emax (Z.pos (digits2_pos p1) + fexp prec emax D)) in *.
  assert (1 <= shr_m mrs'') as Hpos.
  { rewrite Hm''. apply shifted_pos.
    destruct (Z.eq_dec (Z.pos (digits2_pos p1)) (Z.pos (digits2_pos pq))) as [Hsame|Hdiff].
    - assert (e2 = fexp prec emax D) as -> by (unfold e2; rewrite Hsame, Hdq; done).
      lia.
    - lia. }
  destruct (shr_m mrs'') as [|m2|m2] eqn:Hm2; [lia| |lia].
  destruct (Z.leb_spec e'' (emax - prec)) as [Hle|Hgt]; [right|by left].
  exists m2, e''. split; [done|]. subst e''. split_and!.
  - unfold bounded, canonical_mantissa.
    rewrite (digits2_pos_div p1 m2 (e2 - fexp prec emax D)) by (done || lia).
    replace (Z.pos (digits2_pos p1) - (e2 - fexp prec emax D) + e2)
      with (Z.pos (digits2_pos p1) + fexp prec emax D) by lia.
    fold e2. rewrite Z.eqb_refl. simpl. by apply Z.leb_le.
  - lia.
  - intros Heq. rewrite Heq, Z.sub_diag, Z.div_1_r in Hm''.
    rewrite <- Hq. lia.
Qed.

Lemma bounded_canonical (m : positive) (e : Z) :
  bounded prec emax m e = true ->
  fexp prec emax (Z.pos (digits2_pos m) + e) = e /\ e <= emax - prec.
Proof.
  unfold bounded, canonical_mantissa. intros [H1 H2]%andb_prop.
  apply Z.eqb_eq in H1. apply Z.leb_le in H2. done.
Qed.

Lemma binary_round_spec (M : positive) (e : Z) :
  let D := Z.pos (digits2_pos M) + e in
  e <= fexp prec emax D -> emin prec emax < D ->
  binary_round prec emax false M e = S754_infinity false \/
  exists m e',
    binary_round prec emax false M e = S754_finite false m e' /\
    bounded prec emax m e' = true /\
    fexp prec emax D <= e' /\
    (e' = fexp prec emax D -> Z.pos M / 2 ^ (fexp prec emax D - e) <= Z.pos m).
Proof.
  intros D He HD. unfold binary_round. fold D.
  assert (shl_align M e (fexp prec emax D) = (M, e)) as ->.
  { unfold shl_align. destruct (fexp prec emax D - e) eqn:Hd; try done. lia. }
  by apply binary_round_aux_spec.
Qed.

(** Adding a non-negative finite number to a non-negative finite number
    [x] gives [+inf] or a finite number of the format that is not below
    [x] in the order [SFcompare] uses. *)
Lemma SFadd_finite_nonneg (mx : positive) (ex : Z) (my : positive) (ey : Z) :
  bounded prec emax mx ex = true ->
  SFadd prec emax (S754_finite false mx ex) (S754_finite false my ey)
    = S754_infinity false \/
  exists m e,
    SFadd prec emax (S754_finite false mx ex) (S754_finite false my ey)
      = S754_finite false m e /\
    bounded prec emax m e = true /\
    (ex < e \/ (e = ex /\ (mx <= m)%positive)).
Proof.
  intros [Hcx Hbx]%bounded_canonical.
  unfold SFadd. set (ez := Z.min ex ey).
  destruct (shl_align_spec mx ex ez) as [_ Ha].
  destruct (shl_align_spec my ey ez) as [_ Hb].
  replace (Z.min ex ez) with ez in Ha by lia.
  replace (Z.min ey ez) with ez in Hb by lia.
  set (a := fst (shl_align mx ex ez)) in *.
  set (b := fst (shl_align my ey ez)) in *.
  simpl cond_Zopp. change (Z.pos a + Z.pos b) with (Z.pos (a + b)).
  simpl binary_normalize.
  assert (Z.pos (digits2_pos mx) + ex <= Z.pos (digits2_pos (a + b)) + ez) as HD.
  { pose proof (digits2_pos_shift mx a (ex - ez) ltac:(lia) Ha).
    pose proof (digits2_pos_mono a (a + b) ltac:(lia)). lia. }
  pose proof (fexp_mono _ _ HD) as HfD. rewrite Hcx in HfD.
  pose proof (fexp_ge_emin (Z.pos (digits2_pos mx) + ex)) as Hemin. rewrite Hcx in Hemin.
  destruct (binary_round_spec (a + b) ez) as [Hinf|(m & e & Hr & Hb' & Hle & Hq)];
    [lia|lia|by left|right].
  exists m, e. split_and!; [done|done|].
  destruct (Z.eq_dec e ex) as [->|Hne]; [right|left; lia].
  split; [done|].
  assert (fexp prec emax (Z.pos (digits2_pos (a + b)) + ez) = ex) as Hf by lia.
  specialize (Hq (eq_sym Hf)). rewrite Hf in Hq.
  assert (Z.pos mx <= Z.pos (a + b) / 2 ^ (ex - ez)); [|lia].
  apply Z.div_le_lower_bound; [apply Z.pow_pos_nonneg; lia|].
  rewrite Pos2Z.inj_add, Ha. lia.
Qed.
End Round.

(** ** binary32 sums and their promotion to binary64 *)

Section IeeeFacts.
Import Ieee.

Lemma nonneg32_add (x y : spec_float) :
  nonneg32 x = true -> nonneg32 y = true ->
  nonneg32 (SFadd prec32 emax32 x y) = true.
Proof.
  destruct x as [sx|[]| |[] mx ex], y as [sy|[]| |[] my ey]; try done;
    try (by destruct sx, sy).
  intros Hx _. simpl in Hx.
  destruct (SFadd_finite_nonneg prec32 emax32 ltac:(done) mx ex my ey Hx)
    as [->|(m & e & -> & Hb & _)]; [done|]. by simpl.
Qed.

Lemma SFcompare_finite_nonneg (m1 : positive) (e1 : Z) (m2 : positive) (e2 : Z) :
  SFcompare (S754_finite false m1 e1) (S754_finite false m2 e2) =
  Some match e1 ?= e2 with
       | Lt => Lt | Gt => Gt | Eq => (m1 ?= m2)%positive
       end.
Proof. reflexivity. Qed.

(** In the order of [SFcompare], a sum of members of [nonneg32] is not
    below its first summand. *)
Lemma nonneg32_add_ge (x y : spec_float) :
  nonneg32 x = true -> nonneg32 y = true ->
  SFltb (SFadd prec32 emax32 x y) x = false.
Proof.
  destruct x as [sx|[]| |[] mx ex], y as [sy|[]| |[] my ey]; try done;
    try (by destruct sx, sy); try (by destruct sx); try (by destruct sy).
  - (* finite + zero *)
    intros _ _. unfold SFltb. simpl SFadd. rewrite SFcompare_finite_nonneg.
    by rewrite Z.compare_refl, Pos.compare_refl.
  - (* finite + finite *)
    intros Hx _. simpl in Hx.
    destruct (SFadd_finite_nonneg prec32 emax32 ltac:(done) mx ex my ey Hx)
      as [->|(m & e & -> & Hb & Hge)]; [done|].
    unfold SFltb. rewrite SFcompare_finite_nonneg.
    destruct Hge as [Hlt|[-> Hle]].
    + by rewrite (proj2 (Z.compare_gt_iff e ex)) by lia.
    + rewrite Z.compare_refl.
      destruct (Pos.compare_spec m mx); try done. lia.
Qed.

Lemma promote_finite (s : bool) (m : positive) (e : Z) :
  bounded prec32 emax32 m e = true ->
  exists m',
    promote (S754_finite s m e) =
      S754_finite s m' (Z.pos (digits2_pos m) + e - 53) /\
    Z.pos m' = Z.pos m * 2 ^ (53 - Z.pos (digits2_pos m)) /\
    -149 <= e /\ Z.pos (digits2_pos m) <= 24 /\
    (-149 < e -> Z.pos (digits2_pos m) = 24).
Proof.
  intros [Hc _]%bounded_canonical.
  unfold fexp, SpecFloat.emin, prec32, emax32 in Hc.
  pose proof (Pos2Z.is_pos (digits2_pos m)).
  unfold promote.
  destruct (shl_align_spec m e (fexp prec64 emax64 (Z.pos (digits2_pos m) + e)))
    as [He' Hm'].
  destruct (shl_align m e (fexp prec64 emax64 (Z.pos (digits2_pos m) + e)))
    as [m' e']. simpl in He', Hm'.
  assert (fexp prec64 emax64 (Z.pos (digits2_pos m) + e)
          = Z.pos (digits2_pos m) + e - 53) as Hf
    by (unfold fexp, SpecFloat.emin, prec64, emax64; lia).
  rewrite Hf in He', Hm'.
  exists m'. split_and!; [f_equal; lia| |lia|lia|lia].
  rewrite Hm'. f_equal. f_equal. lia.
Qed.

(** On the finite members of binary32, [promote] is the conversion to
    binary64 by [binary_round], which here has nothing to round. *)
Lemma promote_is_binary_round (s : bool) (m : positive) (e : Z) :
  bounded prec32 emax32 m e = true ->
  promote (S754_finite s m e) = binary_round prec64 emax64 s m e.
Proof.
  intros Hb. destruct (promote_finite s m e Hb) as (m' & Hp & Hm' & He & Hd & _).
  destruct (bounded_canonical prec32 emax32 m e Hb) as [_ Hemax].
  unfold prec32, emax32 in Hemax.
  rewrite Hp. unfold promote in Hp. unfold binary_round.
  destruct (shl_align m e (fexp prec64 emax64 (Z.pos (digits2_pos m) + e)))
    as [mz ez] eqn:Hsh.
  injection Hp as -> ->.
  assert (fexp prec64 emax64 (Z.pos (digits2_pos m') + (Z.pos (digits2_pos m) + e - 53))
          = Z.pos (digits2_pos m) + e - 53) as Hf.
  { rewrite (digits2_pos_shift m m' (53 - Z.pos (digits2_pos m))) by (lia || done).
    unfold fexp, SpecFloat.emin, prec64, emax64. lia. }
  unfold binary_round_aux, shr_fexp. simpl Zdigits2. rewrite Hf, Z.sub_diag. simpl.
  rewrite Hf, Z.sub_diag. simpl.
  destruct (Z.leb_spec (Z.pos (digits2_pos m) + e - 53) (emax64 - prec64)) as [_|Hgt];
    [done|]. unfold emax64, prec64 in Hgt. lia.
Qed.

Lemma promote_compare_finite (mx : positive) (ex : Z) (my : positive) (ey : Z) :
  bounded prec32 emax32 mx ex = true -> bounded prec32 emax32 my ey = true ->
  SFcompare (promote (S754_finite false mx ex)) (promote (S754_finite false my ey)) =
  SFcompare (S754_finite false mx ex) (S754_finite false my ey).
Proof.
  intros Hx Hy.
  destruct (promote_finite false mx ex Hx) as (mx' & -> & Hmx & ? & ? & ?).
  destruct (promote_finite false my ey Hy) as (my' & -> & Hmy & ? & ? & ?).
  rewrite !SFcompare_finite_nonneg. f_equal.
  set (dx := Z.pos (digits2_pos mx)) in *.
  set (dy := Z.pos (digits2_pos my)) in *.
  destruct (Z.compare_spec ex ey) as [->|Hlt|Hgt].
  - destruct (Pos.compare_spec mx my) as [->|Hm|Hm].
    + assert (mx' = my') as -> by (apply Pos2Z.inj; by rewrite Hmx, Hmy).
      by rewrite Z.compare_refl, Pos.compare_refl.
    + pose proof (digits2_pos_mono mx my ltac:(lia)) as Hd. fold dx dy in Hd.
      destruct (Z.eq_dec dx dy) as [Heq|Hne].
      * rewrite Heq, Z.compare_refl. apply Pos.compare_lt_iff.
        assert (Z.pos mx' < Z.pos my'); [|lia].
        rewrite Hmx, Hmy, Heq. apply Z.mul_lt_mono_pos_r; [|lia].
        apply Z.pow_pos_nonneg; lia.
      * by rewrite (proj2 (Z.compare_lt_iff _ _)) by lia.
    + pose proof (digits2_pos_mono my mx ltac:(lia)) as Hd. fold dx dy in Hd.
      destruct (Z.eq_dec dx dy) as [Heq|Hne].
      * rewrite Heq, Z.compare_refl. apply Pos.compare_gt_iff.
        assert (Z.pos my' < Z.pos mx'); [|lia].
        rewrite Hmx, Hmy, Heq. apply Z.mul_lt_mono_pos_r; [|lia].
        apply Z.pow_pos_nonneg; lia.
      * by rewrite (proj2 (Z.compare_gt_iff _ _)) by lia.
  - by rewrite (proj2 (Z.compare_lt_iff _ _)) by lia.
  - by rewrite (proj2 (Z.compare_gt_iff _ _)) by lia.
Qed.

Lemma promote_compare (x y : spec_float) :
  nonneg32 x = true -> nonneg32 y = true ->
  SFcompare (promote x) (promote y) = SFcompare x y.
Proof.
  destruct x as [sx|[]| |[] mx ex], y as [sy|[]| |[] my ey]; try done;
    intros Hx Hy; simpl in Hx, Hy;
    try (by apply promote_compare_finite);
    try (by destruct (promote_finite false mx ex Hx) as (m' & -> & _));
    try (by destruct (promote_finite false my ey Hy) as (m' & -> & _)).
Qed.

Lemma promote_not_nan (x : spec_float) :
  nonneg32 x = true -> not_nan (promote x) = true.
Proof.
  destruct x as [sx|[]| |[] mx ex]; try done.
  intros Hx. simpl in Hx.
  by destruct (promote_finite false mx ex Hx) as (m' & -> & _).
Qed.

Lemma promote_gt_minus_one (x : spec_float) :
  nonneg32 x = true -> gt (promote x) minus_one = true.
Proof.
  destruct x as [sx|[]| |[] mx ex]; try done.
  intros Hx. simpl in Hx.
  by destruct (promote_finite false mx ex Hx) as (m' & -> & _).
Qed.
End IeeeFacts.

Section Order.
Import Ieee.

Ltac cmp_cases :=
  repeat match goal with
  | |- context [(?a ?= ?b)%Z] => destruct (Z.compare_spec a b)
  | |- context [Pos.compare_cont Eq ?a ?b] =>
      change (Pos.compare_cont Eq a b) with (Pos.compare a b);
      destruct (Pos.compare_spec a b)
  | H : context [(?a ?= ?b)%Z] |- _ => destruct (Z.compare_spec a b)
  | H : context [Pos.compare_cont Eq ?a ?b] |- _ =>
      change (Pos.compare_cont Eq a b) with (Pos.compare a b) in H;
      destruct (Pos.compare_spec a b)
  end.

Lemma ieee_gt_asym (a b : spec_float) : gt a b = true -> gt b a = false.
Proof.
  unfold gt, SFltb.
  destruct a as [[]|[]| |[] ma ea], b as [[]|[]| |[] mb eb]; simpl; try done;
    cmp_cases; simpl; try done; lia.
Qed.

Lemma ieee_le_trans (a b c : spec_float) :
  not_nan a = true -> not_nan b = true -> not_nan c = true ->
  gt a b = false -> gt b c = false -> gt a c = false.
Proof.
  unfold gt, SFltb.
  destruct a as [[]|[]| |[] ma ea], b as [[]|[]| |[] mb eb], c as [[]|[]| |[] mc ec];
    simpl; try done; intros _ _ _;
    cmp_cases; simpl; try done; lia.
Qed.
End Order.

(** ** The accumulation as two running maxima *)

Section Views.
Variable A : Arith.
Implicit Types (st : Locals A) (t : TrackIDE A) (ps : list MCParticle).
Implicit Types (recs : list (TrackIDE A)).

Lemma collector_at_E (c : gmap Z (TrackIDEinfo A)) (k : Z) :
  E (collector_at A c k) = default (flt_zero A) ((E <$> c) !! k).
Proof. unfold collector_at. rewrite lookup_fmap. by destruct (c !! k). Qed.

Lemma collector_at_N (c : gmap Z (TrackIDEinfo A)) (k : Z) :
  NumElectrons (collector_at A c k) = default (flt_zero A) ((NumElectrons <$> c) !! k).
Proof. unfold collector_at. rewrite lookup_fmap. by destruct (c !! k). Qed.

Lemma collector_at_insert (c : gmap Z (TrackIDEinfo A)) (k : Z) (info : TrackIDEinfo A) :
  collector_at A (<[k := info]> c) k = info.
Proof. unfold collector_at. by rewrite lookup_insert_eq. Qed.

Lemma energy_view_body ps st t :
  energy_view (trkide_body A ps st t) =
  run_max_step (energy_view st) (trackID t) (energy t).
Proof.
  unfold trkide_body, energy_view.
  destruct (find_mcparticle_same_acc A ps (add_charge A (add_energy A st t) t) t)
    as (-> & _ & -> & _ & _ & _ & ->).
  unfold run_max_step, add_charge, add_energy. simpl.
  rewrite collector_at_insert. simpl.
  rewrite insert_insert_eq, fmap_insert, collector_at_E. simpl. done.
Qed.

Lemma charge_view_body ps st t :
  charge_view (trkide_body A ps st t) =
  run_max_step (charge_view st) (trackID t) (numElectrons t).
Proof.
  unfold trkide_body, charge_view.
  destruct (find_mcparticle_same_acc A ps (add_charge A (add_energy A st t) t) t)
    as (_ & _ & _ & -> & _ & -> & ->).
  unfold run_max_step, add_charge, add_energy. simpl.
  rewrite collector_at_insert. simpl.
  rewrite insert_insert_eq, fmap_insert, collector_at_N. simpl. done.
Qed.

Lemma energy_view_collected recs :
  energy_view (collected recs) = run_max (energies recs).
Proof.
  induction recs as [|t recs IH] using rev_ind; [done|].
  unfold collected, energies, run_max in *.
  rewrite trkide_loop_snoc, energy_view_body, fmap_app, fold_left_app, IH. done.
Qed.

Lemma charge_view_collected recs :
  charge_view (collected recs) = run_max (charges recs).
Proof.
  induction recs as [|t recs IH] using rev_ind; [done|].
  unfold collected, charges, run_max in *.
  rewrite trkide_loop_snoc, charge_view_body, fmap_app, fold_left_app, IH. done.
Qed.

Lemma run_max_snoc (l : list (Z * flt A)) (kx : Z * flt A) :
  run_max (l ++ [kx]) = run_max_step (run_max l) kx.1 kx.2.
Proof. unfold run_max. by rewrite fold_left_app. Qed.
End Views.

(** ** The running maximum under the laws of the arithmetic *)

Section RunMaxLaws.
Variable A : Arith.
Variable fok : flt A -> Prop.
Variable dok : dbl A -> Prop.
Hypothesis L : ArithLaws A fok dok.
Implicit Types (l : list (Z * flt A)) (kx : Z * flt A) (s : RunMax A).

Lemma law_gt_irrefl (a : dbl A) : dok a -> dbl_gt A a a = false.
Proof.
  intros Ha. destruct (dbl_gt A a a) eqn:H; [|done].
  by rewrite (law_gt_asym A fok dok L a a Ha Ha H) in H.
Qed.

(** [a <= b] and [b < c] give [a < c]. *)
Lemma law_le_lt (a b c : dbl A) :
  dok a -> dok b -> dok c ->
  dbl_gt A a b = false -> dbl_gt A c b = true -> dbl_gt A c a = true.
Proof.
  intros Ha Hb Hc Hab Hcb.
  destruct (dbl_gt A c a) eqn:Hca; [done|].
  by rewrite (law_le_trans A fok dok L c a b Hc Ha Hb Hca Hab) in Hcb.
Qed.

(** The sum a record is added to, and the sum after it, are good values. *)
Lemma step_values_ok s kx :
  bounded_by_max fok dok s -> fok kx.2 ->
  fok (default (flt_zero A) (s.1.1 !! kx.1)) /\
  fok (flt_add A (default (flt_zero A) (s.1.1 !! kx.1)) kx.2).
Proof.
  intros [_ Hsums] Hkx.
  assert (fok (default (flt_zero A) (s.1.1 !! kx.1))) as Hold.
  { destruct (s.1.1 !! kx.1) as [v|] eqn:Hv; simpl.
    - by apply (Hsums _ _ Hv).
    - apply (fok_zero A fok dok L). }
  split; [done|]. by apply (fok_add A fok dok L).
Qed.

Lemma run_max_step_bounded s kx :
  bounded_by_max fok dok s -> fok kx.2 ->
  bounded_by_max fok dok (run_max_step s kx.1 kx.2).
Proof.
  intros Hs Hkx. destruct (step_values_ok s kx Hs Hkx) as [Hold Hnew].
  destruct Hs as [Hmx Hsums].
  pose proof (dok_to_dbl A fok dok L _ Hnew) as Hdnew.
  unfold run_max_step, bounded_by_max. simpl.
  destruct (dbl_gt A (to_dbl A (flt_add A (default (flt_zero A) (s.1.1 !! kx.1)) kx.2))
              s.1.2) eqn:Hupd.
  - split; [done|]. intros k v. rewrite lookup_insert. case_decide as Hk.
    + intros [= <-]. split; [done|]. by apply law_gt_irrefl.
    + intros Hv. destruct (Hsums _ _ Hv) as [Hfv Hle]. split; [done|].
      apply (law_le_trans A fok dok L _ s.1.2 _);
        [by apply (dok_to_dbl A fok dok L)|done|done|done|].
      by apply (law_gt_asym A fok dok L) in Hupd.
  - split; [done|]. intros k v. rewrite lookup_insert. case_decide as Hk.
    + by intros [= <-].
    + apply Hsums.
Qed.

Lemma run_max_bounded l :
  Forall (fun kx => fok kx.2) l -> bounded_by_max fok dok (run_max l).
Proof.
  induction l as [|kx l IH] using rev_ind; intros Hl.
  - split; [apply (dok_m1 A fok dok L)|]. intros k v. simpl. by rewrite lookup_empty.
  - apply Forall_app in Hl as [Hl Hkx]. rewrite Forall_singleton in Hkx.
    rewrite run_max_snoc. apply run_max_step_bounded; [by apply IH|done].
Qed.

(** The first record always raises the maximum: it starts at [-1]. *)
Lemma run_max_first kx :
  fok kx.2 ->
  run_max [kx] = ({[kx.1 := flt_add A (flt_zero A) kx.2]},
                  to_dbl A (flt_add A (flt_zero A) kx.2), kx.1).
Proof.
  intros Hkx. unfold run_max, run_max_step. simpl. rewrite lookup_empty. simpl.
  rewrite (law_gt_m1 A fok dok L); [done|].
  apply (fok_add A fok dok L); [apply (fok_zero A fok dok L)|done].
Qed.

Lemma run_max_step_attained s kx :
  bounded_by_max fok dok s -> fok kx.2 ->
  max_attained s -> max_attained (run_max_step s kx.1 kx.2).
Proof.
  intros Hs Hkx (v & Hv & Hge).
  destruct (step_values_ok s kx Hs Hkx) as [Hold Hnew].
  destruct Hs as [Hmx Hsums].
  pose proof (dok_to_dbl A fok dok L _ Hnew) as Hdnew.
  unfold run_max_step, max_attained. simpl.
  destruct (dbl_gt A (to_dbl A (flt_add A (default (flt_zero A) (s.1.1 !! kx.1)) kx.2))
              s.1.2) eqn:Hupd.
  - eexists. rewrite lookup_insert_eq. split; [done|]. by apply law_gt_irrefl.
  - destruct (decide (kx.1 = s.2)) as [Heq|Hne].
    + rewrite <- Heq in Hv |- *. eexists. rewrite lookup_insert_eq. split; [done|].
      rewrite Hv in Hold, Hnew, Hdnew |- *. simpl in *.
      apply (law_le_trans A fok dok L _ (to_dbl A v) _);
        [done|by apply (dok_to_dbl A fok dok L)|done|done|].
      by apply (law_add_mono A fok dok L).
    + exists v. by rewrite lookup_insert_ne.
Qed.

Lemma run_max_attained l :
  l ≠ [] -> Forall (fun kx => fok kx.2) l -> max_attained (run_max l).
Proof.
  induction l as [|kx l IH] using rev_ind; intros Hne Hl; [done|].
  apply Forall_app in Hl as [Hl Hkx]. rewrite Forall_singleton in Hkx.
  destruct l as [|kx0 l0].
  - simpl. rewrite run_max_first by done. unfold max_attained. simpl.
    eexists. rewrite lookup_singleton_eq. split; [done|].
    apply law_gt_irrefl, (dok_to_dbl A fok dok L), (fok_add A fok dok L);
      [apply (fok_zero A fok dok L)|done].
  - rewrite run_max_snoc. apply run_max_step_attained; [|done|by apply IH].
    by apply run_max_bounded.
Qed.

Lemma run_max_first_to_reach l :
  l ≠ [] -> Forall (fun kx => fok kx.2) l -> first_to_reach_max l.
Proof.
  induction l as [|kx l IH] using rev_ind; intros Hne Hl; [done|].
  apply Forall_app in Hl as [Hl Hkx]. rewrite Forall_singleton in Hkx.
  pose proof (run_max_bounded l Hl) as Hb.
  destruct (step_values_ok _ kx Hb Hkx) as [Hold Hnew].
  pose proof (dok_to_dbl A fok dok L _ Hnew) as Hdnew.
  unfold first_to_reach_max.
  destruct (dbl_gt A (to_dbl A (flt_add A (default (flt_zero A) ((run_max l).1.1 !! kx.1))
                                 kx.2)) (run_max l).1.2) eqn:Hupd.
  - exists l, kx, []. rewrite !run_max_snoc. unfold run_max_step. rewrite Hupd. simpl.
    split_and!; [done|done| |].
    + intros k v Hv. destruct Hb as [Hmx Hsums]. destruct (Hsums _ _ Hv) as [Hfv Hle].
      apply (law_le_lt _ (run_max l).1.2 _);
        [by apply (dok_to_dbl A fok dok L)|done|done|done|done].
    + eexists. by rewrite lookup_insert_eq.
  - destruct (decide (l = [])) as [->|Hl0].
    { simpl in Hupd. rewrite lookup_empty in Hupd. simpl in Hupd.
      rewrite (law_gt_m1 A fok dok L) in Hupd; [done|].
      apply (fok_add A fok dok L); [apply (fok_zero A fok dok L)|done]. }
    destruct (IH Hl0 Hl) as (pre & kx1 & post & Hsplit & Hid & Hbelow & Hreach).
    exists pre, kx1, (post ++ [kx]).
    rewrite (run_max_snoc A l kx). unfold run_max_step. rewrite Hupd. simpl.
    split_and!; [|done|done|done].
    by rewrite Hsplit, <- app_assoc.
Qed.
End RunMaxLaws.

(** ** The IEEE arithmetic satisfies the laws *)

Lemma IEEE_laws :
  ArithLaws IEEE (fun x => Ieee.nonneg32 x = true) (fun x => Ieee.not_nan x = true).
Proof.
  split; simpl.
  - done.
  - apply nonneg32_add.
  - apply promote_not_nan.
  - done.
  - apply ieee_le_trans.
  - intros a b _ _. apply ieee_gt_asym.
  - apply promote_gt_minus_one.
  - intros x y Hx Hy. unfold Ieee.gt, SFltb.
    rewrite promote_compare by (try apply nonneg32_add; done).
    apply (nonneg32_add_ge x y Hx Hy).
Qed.

(** ** The associations of an event, hit by hit *)

Section EventAssns.
Variable A : Arith.
Variable Hit : Type.
Variable HitToTrackID : Hit -> list (TrackIDE A).
Implicit Types (ps : list MCParticle) (recs : list (TrackIDE A)) (a : Assn A).
Implicit Types (hitList : list Hit).

Lemma hit_assns_key ps i_h recs a : a ∈ hit_assns ps i_h recs -> hit_key a = i_h.
Proof.
  unfold hit_assns. rewrite list_elem_of_omap. intros (kv & _ & Hkv).
  unfold assn_for in Hkv. destruct (resolve ps kv.1 =? -1); [done|].
  by injection Hkv as <-.
Qed.

Lemma hit_assns_nil ps i_h : hit_assns (A:=A) ps i_h [] = [].
Proof. unfold hit_assns, collected. simpl. by rewrite map_to_list_empty. Qed.

Lemma elem_of_event_assns ps i_h hitList a :
  a ∈ event_assns HitToTrackID ps i_h hitList <->
  exists j h, hitList !! j = Some h /\
              a ∈ hit_assns ps (i_h + j) (HitToTrackID h).
Proof.
  revert i_h. induction hitList as [|h rest IH]; intros i_h; simpl.
  - split; [by intros ?%elem_of_nil|]. by intros (j & h & ? & _).
  - rewrite elem_of_app, IH. split.
    + intros [Ha|(j & h' & Hj & Ha)].
      * exists 0%nat, h. by rewrite Nat.add_0_r.
      * exists (S j), h'. by rewrite Nat.add_succ_r.
    + intros ([|j] & h' & Hj & Ha); simpl in Hj.
      * injection Hj as <-. left. by rewrite Nat.add_0_r in Ha.
      * right. exists j, h'. by rewrite Nat.add_succ_r in Ha.
Qed.

Lemma filter_all {X} (P : X -> Prop) `{!forall x, Decision (P x)} (l : list X) :
  (forall x, x ∈ l -> P x) -> filter P l = l.
Proof.
  induction l as [|x l IH]; intros Hall; [done|].
  rewrite filter_cons_True by (apply Hall; by left).
  f_equal. apply IH. intros y Hy. apply Hall. by right.
Qed.

Lemma filter_none {X} (P : X -> Prop) `{!forall x, Decision (P x)} (l : list X) :
  (forall x, x ∈ l -> ~ P x) -> filter P l = [].
Proof.
  induction l as [|x l IH]; intros Hnone; [done|].
  rewrite filter_cons_False by (apply Hnone; by left).
  apply IH. intros y Hy. apply Hnone. by right.
Qed.

Lemma assns_of_hit_event ps i_h hitList j h :
  hitList !! j = Some h ->
  assns_of_hit (i_h + j) (event_assns HitToTrackID ps i_h hitList) =
  hit_assns ps (i_h + j) (HitToTrackID h).
Proof.
  unfold assns_of_hit.
  revert i_h j. induction hitList as [|h0 rest IH]; intros i_h j Hj; [done|].
  simpl. rewrite filter_app. destruct j as [|j]; simpl in Hj.
  - injection Hj as ->. rewrite Nat.add_0_r.
    rewrite filter_all by (intros a Ha; by apply hit_assns_key in Ha).
    rewrite filter_none; [by rewrite app_nil_r|].
    intros a (j & h' & _ & Ha%hit_assns_key)%elem_of_event_assns. lia.
  - rewrite filter_none by (intros a Ha%hit_assns_key; lia).
    rewrite Nat.add_succ_r. apply (IH (S i_h) j Hj).
Qed.

(** What [produce] writes for the hit at position [j]. *)
Lemma produce_hit ps hitList j h :
  hitList !! j = Some h ->
  exists out,
    produce A Hit HitToTrackID
      {| isRealData := false; mcparticles := Some ps; hits := Some hitList |} =
      Returns {| cerr := []; put := Some out |} /\
    assns_of_hit j out = hit_assns ps j (HitToTrackID h).
Proof.
  intros Hj. eexists. split; [apply produce_put|].
  apply (assns_of_hit_event ps 0 hitList j h Hj).
Qed.
End EventAssns.

(** ** Counting the associations of a hit *)

Section Counting.
Variable A : Arith.
Implicit Types (ps : list MCParticle) (recs : list (TrackIDE A)) (a : Assn A).
Implicit Types (st : Locals A) (kv : Z * TrackIDEinfo A).

Lemma assn_for_Some ps i_h st kv a :
  assn_for ps i_h st kv = Some a <->
  resolve ps kv.1 ≠ -1 /\
  a = {| hit_key := i_h; mcpart_key := resolve ps kv.1; data := bthmd A st kv |}.
Proof.
  unfold assn_for. destruct (Z.eqb_spec (resolve ps kv.1) (-1)) as [Heq|Hne].
  - split; [done|]. by intros [? _].
  - split; [by intros [= <-]|]. by intros [_ ->].
Qed.

Lemma assn_for_None ps i_h st kv :
  assn_for ps i_h st kv = None <-> resolve ps kv.1 = -1.
Proof.
  unfold assn_for. destruct (Z.eqb_spec (resolve ps kv.1) (-1)) as [Heq|Hne]; naive_solver.
Qed.

(** With fewer than 2^31 particles a track id resolves exactly when a
    particle carries it. *)
Lemma resolve_carried ps k :
  Z.of_nat (length ps) <= 2 ^ 31 -> resolve ps k ≠ -1 <-> carried ps k.
Proof.
  intros Hlen. unfold carried. rewrite Exists_exists. split.
  - intros Hr. unfold resolve in Hr. destruct (scan ps k 0) as [j|] eqn:Hs; [|done].
    apply scan_Some in Hs as [(p & Hp & Hk) _]. exists p. split; [|done].
    by eapply list_elem_of_lookup_2.
  - intros Hex. by destruct (resolve_Some ps k Hlen Hex) as (j & _ & _ & Hne).
Qed.

Lemma map_to_list_filter_perm {X} (P : Z * X -> Prop) `{!forall x, Decision (P x)}
    (m : gmap Z X) :
  map_to_list (filter P m) ≡ₚ filter P (map_to_list m).
Proof.
  rewrite map_filter_alt. apply map_to_list_to_map.
  eapply sublist_NoDup; [apply (NoDup_fst_map_to_list m)|].
  apply fmap_sublist, sublist_filter.
Qed.

Lemma omap_length_filter {X Y} (f : X -> option Y) (P : X -> Prop)
    `{!forall x, Decision (P x)} (l : list X) :
  (forall x, is_Some (f x) <-> P x) -> length (omap f l) = length (filter P l).
Proof.
  intros Hf. induction l as [|x l IH]; [done|]. csimpl.
  destruct (f x) as [y|] eqn:Hx.
  - rewrite filter_cons_True by (apply Hf; by rewrite Hx). simpl. by rewrite IH.
  - rewrite filter_cons_False; [done|]. rewrite <- Hf, Hx. by intros [? ?].
Qed.

(** A hit has one association for each of its distinct track ids that
    resolves. *)
Lemma hit_assns_length ps i_h recs :
  length (hit_assns ps i_h recs) =
  size (filter (fun k => resolve ps k ≠ -1) (track_ids recs)).
Proof.
  unfold hit_assns.
  rewrite (omap_length_filter _ (fun kv => resolve ps kv.1 ≠ -1)).
  - rewrite <- collected_dom, filter_dom_L, size_dom, <- length_map_to_list.
    symmetry. apply Permutation_length, map_to_list_filter_perm.
  - intros kv. split.
    + intros [a Ha]. by apply assn_for_Some in Ha as [? _].
    + intros Hne. eexists. apply assn_for_Some. by split.
Qed.

Lemma hit_assns_length_carried ps i_h recs :
  Z.of_nat (length ps) <= 2 ^ 31 ->
  length (hit_assns ps i_h recs) = size (filter (carried ps) (track_ids recs)).
Proof.
  intros Hlen. rewrite hit_assns_length. f_equal.
  apply set_eq. intros k. rewrite !elem_of_filter.
  by rewrite (resolve_carried ps k Hlen).
Qed.

(** Where an association of a hit comes from. *)
Lemma elem_of_hit_assns ps i_h recs a :
  a ∈ hit_assns ps i_h recs <->
  exists k info,
    fTrkIDECollector (collected recs) !! k = Some info /\
    resolve ps k ≠ -1 /\
    a = {| hit_key := i_h; mcpart_key := resolve ps k;
           data := bthmd A (collected recs) (k, info) |}.
Proof.
  unfold hit_assns. rewrite list_elem_of_omap. split.
  - intros ([k info] & Hkv%elem_of_map_to_list & [Hr ->]%assn_for_Some).
    by exists k, info.
  - intros (k & info & Hkv & Hne & ->). exists (k, info).
    split; [by apply elem_of_map_to_list|]. by apply assn_for_Some.
Qed.

Lemma collected_key_in_records recs k info :
  fTrkIDECollector (collected recs) !! k = Some info ->
  exists t, t ∈ recs /\ trackID t = k.
Proof.
  intros Hk. apply elem_of_track_ids. rewrite <- collected_dom.
  apply elem_of_dom. by eexists.
Qed.

Lemma tote_body ps st t :
  tote (trkide_body A ps st t) = dbl_add A (tote st) (to_dbl A (energy t)) /\
  totn (trkide_body A ps st t) = dbl_add A (totn st) (to_dbl A (numElectrons t)).
Proof.
  unfold trkide_body.
  by destruct (find_mcparticle_same_acc A ps (add_charge A (add_energy A st t) t) t)
    as (_ & -> & _ & _ & -> & _ & _).
Qed.

Lemma totals_collected recs :
  tote (collected recs) = total_energy recs /\
  totn (collected recs) = total_charge recs.
Proof.
  induction recs as [|t recs [IHe IHn]] using rev_ind; [done|].
  unfold collected, total_energy, total_charge in *.
  rewrite trkide_loop_snoc, !fold_left_app. simpl.
  destruct (tote_body [] (trkide_loop A [] recs (initial A)) t) as [-> ->].
  by rewrite IHe, IHn.
Qed.
End Counting.

(** ** Resolution of track ids *)

Section Resolution.
Variable A : Arith.
Variable Hit : Type.
Variable HitToTrackID : Hit -> list (TrackIDE A).
Implicit Types (ps : list MCParticle) (st : Locals A).

Lemma resolve_first_carrier ps k :
  Z.of_nat (length ps) <= 2 ^ 31 ->
  resolve ps k ≠ -1 -> first_carrier ps k (resolve ps k).
Proof.
  intros Hlen Hr. unfold resolve in *.
  destruct (scan ps k 0) as [j|] eqn:Hs; [|done].
  pose proof (scan_lt _ _ _ Hs). apply scan_Some in Hs as [Hp Hfirst].
  rewrite int_of_size_t_small by lia. unfold first_carrier.
  rewrite Nat2Z.id. split_and!; [lia|done|done].
Qed.

Lemma resolve_not_carried ps k :
  Z.of_nat (length ps) <= 2 ^ 31 -> resolve ps k = -1 -> ~ carried ps k.
Proof. intros Hlen Hr Hc. by apply (resolve_carried ps k Hlen) in Hc. Qed.

Lemma hit_loop_cache_ok ps i_h hitList st :
  cache_ok ps (trkid_lookup st) ->
  cache_ok ps (trkid_lookup (hit_loop A Hit HitToTrackID ps i_h hitList st)).
Proof.
  revert i_h st. induction hitList as [|h rest IH]; intros i_h st Hok; [done|].
  simpl. apply IH. by apply hit_body_spec.
Qed.
End Resolution.

(** ** The flags of the associations of a hit *)

Section Flags.
Variable A : Arith.
Implicit Types (ps : list MCParticle) (recs : list (TrackIDE A)) (a : Assn A).
Implicit Types (st : Locals A) (kv : Z * TrackIDEinfo A).

(** Among the associations written for a list of collector elements with
    distinct track ids, the number of those whose flag marks the track
    id [id]. *)
Lemma flagged_count ps i_h st (flag : BackTrackerHitMatchingData A -> bool) (id : Z)
    (l : list (Z * TrackIDEinfo A)) :
  (forall kv, flag (bthmd A st kv) = bool_decide (kv.1 = id)) ->
  NoDup l.*1 ->
  length (filter (fun a => flag (data a) = true) (omap (assn_for ps i_h st) l)) =
  if decide (id ∈ l.*1 /\ resolve ps id ≠ -1) then 1%nat else 0%nat.
Proof.
  intros Hflag. induction l as [|kv l IH]; intros Hnd.
  - destruct (decide (id ∈ ([] : list (Z * TrackIDEinfo A)).*1 /\ resolve ps id ≠ -1))
      as [[Hin _]|_]; [by apply elem_of_nil in Hin|done].
  - rewrite fmap_cons in Hnd. apply NoDup_cons in Hnd as [Hkv Hnd].
    specialize (IH Hnd). csimpl.
    destruct (assn_for ps i_h st kv) as [a|] eqn:Ha.
    + apply assn_for_Some in Ha as [Hr ->].
      destruct (decide (kv.1 = id)) as [Heq|Hne].
      * rewrite filter_cons_True by (simpl; rewrite Hflag; by apply bool_decide_eq_true).
        simpl. rewrite IH. subst id.
        rewrite decide_False by (by intros [? _]).
        rewrite decide_True; [done|]. split; [by left|done].
      * rewrite filter_cons_False
          by (simpl; rewrite Hflag, bool_decide_eq_true; done).
        rewrite IH. apply decide_ext. rewrite elem_of_cons. split.
        -- intros [Hin Hr']. split; [by right|done].
        -- intros [[Heq|Hin] Hr']; [by destruct Hne|by split].
    + apply assn_for_None in Ha. rewrite IH. apply decide_ext.
      rewrite elem_of_cons. split.
      * intros [Hin Hr']. split; [by right|done].
      * intros [[->|Hin] Hr']; [done|by split].
Qed.

Lemma hit_assns_dominant ps i_h recs :
  length (dominant_by_energy (hit_assns ps i_h recs)) =
    (if decide (maxtrkid (collected recs) ∈ track_ids recs /\
                resolve ps (maxtrkid (collected recs)) ≠ -1) then 1%nat else 0%nat) /\
  length (dominant_by_charge (hit_assns ps i_h recs)) =
    (if decide (maxntrkid (collected recs) ∈ track_ids recs /\
                resolve ps (maxntrkid (collected recs)) ≠ -1) then 1%nat else 0%nat).
Proof.
  assert (forall id : Z, id ∈ (map_to_list (fTrkIDECollector (collected recs))).*1 <->
                         id ∈ track_ids recs) as Hkeys.
  { intros id. rewrite <- collected_dom, elem_of_dom, list_elem_of_fmap. split.
    - intros ([k info] & -> & Hkv%elem_of_map_to_list). by eexists.
    - intros [info Hk]. exists (id, info). split; [done|]. by apply elem_of_map_to_list. }
  unfold dominant_by_energy, dominant_by_charge, hit_assns. split.
  - rewrite (flagged_count ps i_h (collected recs) isMaxIDE (maxtrkid (collected recs)));
      [|done|apply NoDup_fst_map_to_list].
    apply decide_ext. by rewrite Hkeys.
  - rewrite (flagged_count ps i_h (collected recs) isMaxIDEN (maxntrkid (collected recs)));
      [|done|apply NoDup_fst_map_to_list].
    apply decide_ext. by rewrite Hkeys.
Qed.
End Flags.

(** ** The maxima of a hit *)

Section MaxOfHit.
Variable A : Arith.
Variable fok : flt A -> Prop.
Variable dok : dbl A -> Prop.
Hypothesis L : ArithLaws A fok dok.
Implicit Types (recs : list (TrackIDE A)).

Lemma maximal_of_run_max (l : list (Z * flt A)) :
  l ≠ [] -> Forall (fun kx => fok kx.2) l ->
  exists v, (run_max l).1.1 !! (run_max l).2 = Some v /\
    forall k v', (run_max l).1.1 !! k = Some v' ->
      dbl_gt A (to_dbl A v') (to_dbl A v) = false.
Proof.
  intros Hne Hl.
  destruct (run_max_attained A fok dok L l Hne Hl) as (v & Hv & Hge).
  destruct (run_max_bounded A fok dok L l Hl) as [Hmx Hsums].
  exists v. split; [done|]. intros k v' Hv'.
  destruct (Hsums _ _ Hv') as [Hf' Hle']. destruct (Hsums _ _ Hv) as [Hf _].
  apply (law_le_trans A fok dok L _ (run_max l).1.2 _);
    [by apply (dok_to_dbl A fok dok L)|done|by apply (dok_to_dbl A fok dok L)|done|done].
Qed.

Lemma first_to_reach_fmap (g : TrackIDE A -> Z * flt A) recs :
  first_to_reach_max (g <$> recs) ->
  exists pre t post,
    recs = pre ++ t :: post /\
    (g t).1 = (run_max (g <$> recs)).2 /\
    (forall k v, (run_max (g <$> pre)).1.1 !! k = Some v ->
       dbl_gt A (run_max (g <$> recs)).1.2 (to_dbl A v) = true) /\
    (exists v, (run_max (g <$> (pre ++ [t]))).1.1 !! (g t).1 = Some v /\
       to_dbl A v = (run_max (g <$> recs)).1.2).
Proof.
  intros (pre' & kx & post' & Hsplit & Hid & Hbelow & Hreach).
  apply fmap_app_inv in Hsplit as (pre & rest & -> & Hrest & ->).
  symmetry in Hrest. apply fmap_cons_inv in Hrest as (t & post & -> & -> & ->).
  exists pre, t, post. split_and!; [done|done|done|].
  by rewrite fmap_app.
Qed.

Lemma energy_maximal_collected recs :
  recs ≠ [] -> Forall (fun t => fok (energy t)) recs ->
  energy_maximal (collected recs) (maxtrkid (collected recs)).
Proof.
  intros Hne Hall.
  destruct (maximal_of_run_max (energies recs)) as (v & Hv & Hmax).
  { unfold energies. by destruct recs. }
  { unfold energies. by rewrite Forall_fmap. }
  rewrite <- energy_view_collected in Hv, Hmax. simpl in Hv, Hmax.
  rewrite lookup_fmap in Hv.
  destruct (fTrkIDECollector (collected recs) !! maxtrkid (collected recs))
    as [info|] eqn:Hinfo; [|done].
  injection Hv as <-. exists info. split; [done|].
  intros k info' Hk. apply (Hmax k). by rewrite lookup_fmap, Hk.
Qed.

Lemma charge_maximal_collected recs :
  recs ≠ [] -> Forall (fun t => fok (numElectrons t)) recs ->
  charge_maximal (collected recs) (maxntrkid (collected recs)).
Proof.
  intros Hne Hall.
  destruct (maximal_of_run_max (charges recs)) as (v & Hv & Hmax).
  { unfold charges. by destruct recs. }
  { unfold charges. by rewrite Forall_fmap. }
  rewrite <- charge_view_collected in Hv, Hmax. simpl in Hv, Hmax.
  rewrite lookup_fmap in Hv.
  destruct (fTrkIDECollector (collected recs) !! maxntrkid (collected recs))
    as [info|] eqn:Hinfo; [|done].
  injection Hv as <-. exists info. split; [done|].
  intros k info' Hk. apply (Hmax k). by rewrite lookup_fmap, Hk.
Qed.

Lemma energy_first_to_reach_collected recs :
  recs ≠ [] -> Forall (fun t => fok (energy t)) recs -> energy_first_to_reach recs.
Proof.
  intros Hne Hall.
  destruct (first_to_reach_fmap (fun t => (trackID t, energy t)) recs)
    as (pre & t & post & Hsplit & Hid & Hbelow & (v & Hv & Hreach)).
  { apply (run_max_first_to_reach A fok dok L).
    - by destruct recs.
    - by rewrite Forall_fmap. }
  fold (energies recs) in Hid, Hbelow, Hreach. fold (energies pre) in Hbelow.
  fold (energies (pre ++ [t])) in Hv.
  rewrite <- energy_view_collected in Hid, Hreach, Hv.
  rewrite <- !energy_view_collected in Hbelow. simpl in *.
  exists pre, t, post. split_and!; [done|done| |].
  - intros k info Hk. apply (Hbelow k). by rewrite lookup_fmap, Hk.
  - rewrite lookup_fmap in Hv.
    destruct (fTrkIDECollector (collected (pre ++ [t])) !! trackID t) as [info|]; [|done].
    injection Hv as <-. by exists info.
Qed.

Lemma charge_first_to_reach_collected recs :
  recs ≠ [] -> Forall (fun t => fok (numElectrons t)) recs -> charge_first_to_reach recs.
Proof.
  intros Hne Hall.
  destruct (first_to_reach_fmap (fun t => (trackID t, numElectrons t)) recs)
    as (pre & t & post & Hsplit & Hid & Hbelow & (v & Hv & Hreach)).
  { apply (run_max_first_to_reach A fok dok L).
    - by destruct recs.
    - by rewrite Forall_fmap. }
  fold (charges recs) in Hid, Hbelow, Hreach. fold (charges pre) in Hbelow.
  fold (charges (pre ++ [t])) in Hv.
  rewrite <- charge_view_collected in Hid, Hreach, Hv.
  rewrite <- !charge_view_collected in Hbelow. simpl in *.
  exists pre, t, post. split_and!; [done|done| |].
  - intros k info Hk. apply (Hbelow k). by rewrite lookup_fmap, Hk.
  - rewrite lookup_fmap in Hv.
    destruct (fTrkIDECollector (collected (pre ++ [t])) !! trackID t) as [info|]; [|done].
    injection Hv as <-. by exists info.
Qed.
End MaxOfHit.

(** ** Records without energy in the IEEE arithmetic *)

Section IeeeZero.
Import Ieee.




Lemma gt_zero_minus_one (a : spec_float) : is_zero a = true -> gt a minus_one = true.
Proof. by destruct a. Qed.




End IeeeZero.

(** ** How many associations a hit has, and to which particles *)

Section Keys.
Variable A : Arith.
Implicit Types (ps : list MCParticle) (recs : list (TrackIDE A)) (a : Assn A).
Implicit Types (st : Locals A).

Lemma track_ids_size recs : (size (track_ids recs) <= length recs)%nat.
Proof.
  induction recs as [|t recs IH]; [done|].
  unfold track_ids in *. rewrite fmap_cons. simpl.
  rewrite size_union_alt, size_singleton.
  pose proof (subseteq_size (list_to_set (trackID <$> recs) ∖ {[trackID t]})
                (list_to_set (trackID <$> recs) : gset Z)) as Hsub.
  assert (size ((list_to_set (trackID <$> recs) : gset Z) ∖ {[trackID t]})
          <= size (list_to_set (trackID <$> recs) : gset Z))%nat; [|lia].
  apply Hsub. intros x. rewrite elem_of_difference. by intros [? _].
Qed.

Lemma first_carrier_inj ps k k' v :
  first_carrier ps k v -> first_carrier ps k' v -> k = k'.
Proof.
  intros (_ & (p & Hp & <-) & _) (_ & (p' & Hp' & <-) & _).
  rewrite Hp in Hp'. by injection Hp' as <-.
Qed.

Lemma first_carrier_range ps k v :
  first_carrier ps k v -> 0 <= v < Z.of_nat (length ps).
Proof.
  intros (Hv & (p & Hp & _) & _). apply lookup_lt_Some in Hp. lia.
Qed.

(** Track ids that resolve at all resolve to different positions. *)
Lemma resolve_inj ps k k' :
  Z.of_nat (length ps) <= 2 ^ 31 ->
  resolve ps k ≠ -1 -> resolve ps k = resolve ps k' -> k = k'.
Proof.
  intros Hlen Hr Heq.
  apply (first_carrier_inj ps k k' (resolve ps k)).
  - by apply resolve_first_carrier.
  - rewrite Heq. apply resolve_first_carrier; [done|]. by rewrite <- Heq.
Qed.

Lemma assn_keys_NoDup ps i_h st (l : list (Z * TrackIDEinfo A)) :
  Z.of_nat (length ps) <= 2 ^ 31 ->
  NoDup l.*1 ->
  NoDup (mcpart_key <$> omap (assn_for ps i_h st) l).
Proof.
  intros Hlen. induction l as [|kv l IH]; intros Hnd; [constructor|].
  rewrite fmap_cons in Hnd. apply NoDup_cons in Hnd as [Hkv Hnd]. csimpl.
  destruct (assn_for ps i_h st kv) as [a|] eqn:Ha; [|by apply IH].
  apply assn_for_Some in Ha as [Hr ->].
  rewrite fmap_cons. apply NoDup_cons. split; [|by apply IH].
  simpl. intros (a' & Hkey & Ha')%list_elem_of_fmap.
  apply list_elem_of_omap in Ha' as (kv' & Hin & [Hr' ->]%assn_for_Some).
  simpl in Hkey. apply Hkv.
  rewrite (resolve_inj ps kv.1 kv'.1 Hlen Hr Hkey).
  apply list_elem_of_fmap. by exists kv'.
Qed.

Lemma hit_assns_keys_NoDup ps i_h recs :
  Z.of_nat (length ps) <= 2 ^ 31 ->
  NoDup (mcpart_key <$> hit_assns ps i_h recs).
Proof.
  intros Hlen. unfold hit_assns.
  apply assn_keys_NoDup; [done|apply NoDup_fst_map_to_list].
Qed.

Lemma hit_assns_length_le ps i_h recs :
  (length (hit_assns ps i_h recs) <= size (track_ids recs))%nat.
Proof.
  rewrite hit_assns_length. apply subseteq_size.
  intros k. rewrite elem_of_filter. by intros [_ ?].
Qed.
End Keys.

(** ** The written collection hit by hit, and the cache across hits *)

Section AcrossHits.
Variable A : Arith.
Variable Hit : Type.
Variable HitToTrackID : Hit -> list (TrackIDE A).
Implicit Types (ps : list MCParticle) (st : Locals A) (hitList : list Hit).

Lemma event_assns_imap ps i_h hitList :
  event_assns HitToTrackID ps i_h hitList =
  concat (imap (fun j h => hit_assns ps (i_h + j) (HitToTrackID h)) hitList).
Proof.
  revert i_h. induction hitList as [|h rest IH]; intros i_h; [done|].
  simpl. rewrite Nat.add_0_r, IH. do 2 f_equal.
  apply imap_ext. intros j h' _. simpl. f_equal. lia.
Qed.

Lemma event_assns_app ps i_h hitList more :
  event_assns HitToTrackID ps i_h (hitList ++ more) =
  event_assns HitToTrackID ps i_h hitList ++
  event_assns HitToTrackID ps (i_h + length hitList) more.
Proof.
  revert i_h. induction hitList as [|h rest IH]; intros i_h; simpl.
  - by rewrite Nat.add_0_r.
  - rewrite IH, <- app_assoc. do 3 f_equal. lia.
Qed.

Lemma event_assns_by_hit ps hitList :
  event_assns HitToTrackID ps 0 hitList =
  concat ((fun j => assns_of_hit j (event_assns HitToTrackID ps 0 hitList))
            <$> seq 0 (length hitList)).
Proof.
  rewrite <- imap_seq_0. rewrite event_assns_imap at 1. f_equal.
  apply imap_ext. intros j h Hj.
  pose proof (assns_of_hit_event A Hit HitToTrackID ps 0 hitList j h Hj) as Hpart.
  simpl in *. by rewrite Hpart.
Qed.

(** The loop on the collector reads the cache and leaves it as it is,
    when the loop on the records has cached every key of the collector. *)
Lemma assn_fold_lookup i_h (l : list (Z * TrackIDEinfo A)) st :
  (forall kv, kv ∈ l -> is_Some (trkid_lookup st !! kv.1)) ->
  trkid_lookup (fold_left (assn_body A i_h) l st) = trkid_lookup st.
Proof.
  revert st. induction l as [|kv l IH]; intros st Hin; [done|]. simpl.
  assert (trkid_lookup (assn_body A i_h st kv) = trkid_lookup st) as Hstep.
  { destruct (Hin kv) as [v Hv]; [by left|]. unfold assn_body. simpl. by rewrite Hv. }
  rewrite IH; [done|]. intros kv' Hkv'. rewrite Hstep. apply Hin. by right.
Qed.

Lemma trkide_loop_collector_cached ps recs st kv :
  kv ∈ map_to_list (fTrkIDECollector (trkide_loop A ps recs (reset A st))) ->
  is_Some (trkid_lookup (trkide_loop A ps recs (reset A st)) !! kv.1).
Proof.
  destruct kv as [k info]. intros Hkv%elem_of_map_to_list. simpl.
  assert (k ∈ dom (fTrkIDECollector (trkide_loop A ps recs (reset A st)))) as Hdom
    by (apply elem_of_dom; eauto).
  rewrite trkide_loop_collector_dom in Hdom. simpl in Hdom.
  rewrite dom_empty_L, union_empty_r_L in Hdom.
  apply elem_of_track_ids in Hdom as (t & Ht & <-).
  by apply trkide_loop_lookup_dom.
Qed.

Lemma hit_body_lookup ps i_h h st :
  trkid_lookup (hit_body A Hit HitToTrackID ps i_h h st) =
  trkid_lookup (trkide_loop A ps (HitToTrackID h) (reset A st)).
Proof.
  unfold hit_body, assn_loop. apply assn_fold_lookup.
  intros kv. apply trkide_loop_collector_cached.
Qed.

Lemma trkide_loop_lookup_dom_eq ps recs st :
  dom (trkid_lookup (trkide_loop A ps recs st)) =
  track_ids recs ∪ dom (trkid_lookup st).
Proof.
  revert st. induction recs as [|t recs IH]; intros st.
  - unfold track_ids. simpl. apply set_eq. intros x. set_unfold. tauto.
  - rewrite trkide_loop_cons, IH, trkide_body_lookup.
    unfold track_ids. rewrite fmap_cons. simpl.
    destruct (trkid_lookup st !! trackID t) as [v|] eqn:Hl.
    + assert (trackID t ∈ dom (trkid_lookup st)) as Hin by (apply elem_of_dom; eauto).
      apply set_eq. intros x. set_unfold. split; [tauto|].
      intros [[->|Hx]|Hx]; tauto.
    + rewrite dom_insert_L. apply set_eq. intros x. set_unfold. tauto.
Qed.

Lemma trkide_loop_lookup_keep ps recs st k v :
  trkid_lookup st !! k = Some v ->
  trkid_lookup (trkide_loop A ps recs st) !! k = Some v.
Proof.
  revert st. induction recs as [|t recs IH]; intros st Hk; [done|].
  rewrite trkide_loop_cons. apply IH. rewrite trkide_body_lookup.
  destruct (trkid_lookup st !! trackID t) as [w|] eqn:Hl; [done|].
  rewrite lookup_insert_ne; [done|]. intros <-. congruence.
Qed.

Lemma hit_loop_lookup_dom ps i_h hitList st :
  dom (trkid_lookup (hit_loop A Hit HitToTrackID ps i_h hitList st)) =
  ⋃ ((fun h => track_ids (HitToTrackID h)) <$> hitList) ∪ dom (trkid_lookup st).
Proof.
  revert i_h st. induction hitList as [|h rest IH]; intros i_h st; simpl.
  - apply set_eq. intros x. set_unfold. tauto.
  - rewrite IH, hit_body_lookup, trkide_loop_lookup_dom_eq. simpl.
    apply set_eq. intros x. set_unfold. tauto.
Qed.
End AcrossHits.

(** ** What an association carries *)

Section Carried.
Variable A : Arith.
Implicit Types (ps : list MCParticle) (recs : list (TrackIDE A)) (st : Locals A).

Lemma collector_at_insert_ne (c : gmap Z (TrackIDEinfo A)) (k' k : Z)
    (info : TrackIDEinfo A) :
  k' ≠ k -> collector_at A (<[k' := info]> c) k = collector_at A c k.
Proof. intros Hk. unfold collector_at. by rewrite lookup_insert_ne. Qed.

(** The collector element of a track id holds the sums of the records of
    that id, added in record order to what the element held before. *)
Lemma collector_sums ps recs st k :
  E (collector_at A (fTrkIDECollector (trkide_loop A ps recs st)) k) =
    fold_left (flt_add A) (energy <$> filter (fun t => trackID t = k) recs)
      (E (collector_at A (fTrkIDECollector st) k)) /\
  NumElectrons (collector_at A (fTrkIDECollector (trkide_loop A ps recs st)) k) =
    fold_left (flt_add A) (numElectrons <$> filter (fun t => trackID t = k) recs)
      (NumElectrons (collector_at A (fTrkIDECollector st) k)).
Proof.
  revert st. induction recs as [|t recs IH]; intros st; [done|].
  rewrite trkide_loop_cons.
  destruct (IH (trkide_body A ps st t)) as [-> ->]. clear IH.
  assert (fTrkIDECollector (trkide_body A ps st t) =
          fTrkIDECollector (add_charge A (add_energy A st t) t)) as ->.
  { unfold trkide_body.
    by destruct (find_mcparticle_same_acc A ps (add_charge A (add_energy A st t) t) t)
      as (_ & _ & _ & _ & _ & _ & ->). }
  destruct (decide (trackID t = k)) as [Hk|Hk].
  - rewrite filter_cons_True by done. rewrite !fmap_cons. subst k.
    unfold add_charge, add_energy. cbn [fTrkIDECollector fold_left].
    rewrite !collector_at_insert. cbn [E NumElectrons].
    rewrite ?collector_at_insert. done.
  - rewrite filter_cons_False by done.
    unfold add_charge, add_energy. cbn [fTrkIDECollector].
    by rewrite !collector_at_insert_ne by done.
Qed.

Lemma collected_sums recs k info :
  fTrkIDECollector (collected recs) !! k = Some info ->
  E info = track_energy_sum k recs /\ NumElectrons info = track_charge_sum k recs.
Proof.
  intros Hk. destruct (collector_sums [] recs (initial A) k) as [He Hn].
  unfold collected in Hk. unfold collector_at in He, Hn at 1.
  rewrite Hk in He, Hn. simpl in He, Hn. done.
Qed.

Lemma total_energy_of recs : total_energy recs = total_of (energies recs).
Proof.
  unfold total_energy, total_of, energies. generalize (dbl_zero A).
  induction recs as [|t recs IH]; intros acc; [done|]. simpl. apply IH.
Qed.

Lemma total_charge_of recs : total_charge recs = total_of (charges recs).
Proof.
  unfold total_charge, total_of, charges. generalize (dbl_zero A).
  induction recs as [|t recs IH]; intros acc; [done|]. simpl. apply IH.
Qed.

Lemma part_of_omap {X Y Z'} (f : X -> option Y) (g : Z' -> option Y) (p : X -> Z')
    (l : list X) :
  (forall x, f x = g (p x)) -> omap f l = omap g (p <$> l).
Proof.
  intros H. induction l as [|x l IH]; [done|]. csimpl. by rewrite H, IH.
Qed.

Lemma fmap_omap {X Y Z'} (f : X -> option Y) (g : Y -> Z') (l : list X) :
  g <$> omap f l = omap (fun x => g <$> f x) l.
Proof.
  induction l as [|x l IH]; [done|]. csimpl.
  destruct (f x); csimpl; by rewrite IH.
Qed.

(** The energy parts of the associations of a hit, from the energies of
    its records alone. *)
Lemma energy_part_hit_assns ps i_h recs :
  energy_part <$> hit_assns ps i_h recs =
  omap (part_for ps i_h (run_max (energies recs)) (total_of (energies recs)))
       (map_to_list (run_max (energies recs)).1.1).
Proof.
  rewrite <- energy_view_collected, <- total_energy_of. unfold energy_view. simpl.
  rewrite map_to_list_fmap. unfold hit_assns. rewrite fmap_omap.
  apply part_of_omap. intros [k info]. unfold assn_for, part_for. simpl.
  destruct (resolve ps k =? -1); [done|]. simpl. unfold energy_part. simpl.
  by destruct (totals_collected A recs) as [-> _].
Qed.

Lemma charge_part_hit_assns ps i_h recs :
  charge_part <$> hit_assns ps i_h recs =
  omap (part_for ps i_h (run_max (charges recs)) (total_of (charges recs)))
       (map_to_list (run_max (charges recs)).1.1).
Proof.
  rewrite <- charge_view_collected, <- total_charge_of. unfold charge_view. simpl.
  rewrite map_to_list_fmap. unfold hit_assns. rewrite fmap_omap.
  apply part_of_omap. intros [k info]. unfold assn_for, part_for. simpl.
  destruct (resolve ps k =? -1); [done|]. simpl. unfold charge_part. simpl.
  by destruct (totals_collected A recs) as [_ ->].
Qed.
End Carried.

(** ** NaN and sign in the binary32 and binary64 arithmetic *)

Section IeeeSpoiled.
Import Ieee.
Implicit Types (recs : list (TrackIDE IEEE)).

Lemma SFadd_nan_l (prec emax : Z) (y : spec_float) : SFadd prec emax S754_nan y = S754_nan.
Proof. done. Qed.

Lemma SFadd_nan_r (prec emax : Z) (x : spec_float) : SFadd prec emax x S754_nan = S754_nan.
Proof. by destruct x. Qed.

Lemma SFdiv_nan_r (prec emax : Z) (x : spec_float) : SFdiv prec emax x S754_nan = S754_nan.
Proof. by destruct x. Qed.

Lemma total_of_nan_acc (l : list (Z * flt IEEE)) :
  fold_left (fun acc kx => dbl_add IEEE acc (to_dbl IEEE kx.2)) l S754_nan = S754_nan.
Proof.
  induction l as [|kx l IH]; [done|]. cbn [fold_left].
  change (dbl_add IEEE S754_nan (to_dbl IEEE kx.2)) with S754_nan. apply IH.
Qed.

Lemma total_of_nan (l : list (Z * flt IEEE)) (kx : Z * flt IEEE) :
  kx ∈ l -> kx.2 = S754_nan -> total_of l = S754_nan.
Proof.
  unfold total_of. generalize (dbl_zero IEEE).
  induction l as [|kx' l IH]; intros acc Hin Hnan; [by apply elem_of_nil in Hin|].
  apply elem_of_cons in Hin as [<-|Hin].
  - cbn [fold_left]. rewrite Hnan.
    change (to_dbl IEEE S754_nan) with S754_nan.
    change (dbl_add IEEE acc S754_nan) with (SFadd prec64 emax64 acc S754_nan).
    rewrite SFadd_nan_r. apply total_of_nan_acc.
  - cbn [fold_left]. by apply IH.
Qed.

Lemma fold_nonneg32 (l : list spec_float) (acc : spec_float) :
  nonneg32 acc = true -> Forall (fun x => nonneg32 x = true) l ->
  nonneg32 (fold_left (flt_add IEEE) l acc) = true.
Proof.
  revert acc. induction l as [|x l IH]; intros acc Hacc Hall; [done|].
  apply Forall_cons in Hall as [Hx Hall]. cbn [fold_left].
  apply IH; [|done]. by apply nonneg32_add.
Qed.
End IeeeSpoiled.

(** ** The loop on the collector in any order *)

Section Visiting.
Variable A : Arith.
Variable Hit : Type.
Variable HitToTrackID : Hit -> list (TrackIDE A).
Variable visit : nat -> gmap Z (TrackIDEinfo A) -> list (Z * TrackIDEinfo A).
Hypothesis Hvisit : visits_all visit.
Implicit Types (ps : list MCParticle) (st : Locals A) (hitList : list Hit).
Implicit Types (recs : list (TrackIDE A)).

(** Whatever the order, the associations of a hit are those of
    [hit_assns], in some order. *)
Lemma hit_assns_in_perm ps i_h recs :
  hit_assns_in A visit ps i_h recs ≡ₚ hit_assns ps i_h recs.
Proof. unfold hit_assns_in, hit_assns. apply omap_Permutation, Hvisit. Qed.

Lemma hit_assns_in_key ps i_h recs a :
  a ∈ hit_assns_in A visit ps i_h recs -> hit_key a = i_h.
Proof. rewrite hit_assns_in_perm. apply hit_assns_key. Qed.

Lemma hit_body_in_spec ps i_h h st :
  cache_ok ps (trkid_lookup st) ->
  cache_ok ps (trkid_lookup (hit_body_in A Hit HitToTrackID visit ps i_h h st)) /\
  MCPartHitassn (hit_body_in A Hit HitToTrackID visit ps i_h h st) =
    MCPartHitassn st ++ hit_assns_in A visit ps i_h (HitToTrackID h).
Proof.
  intros Hok. unfold hit_body_in, assn_loop_in.
  set (st1 := trkide_loop A ps (HitToTrackID h) (reset A st)).
  assert (cache_ok ps (trkid_lookup st1)) as Hok1
    by (by apply trkide_loop_cache_ok).
  pose proof (trkide_loop_reset A ps (HitToTrackID h) st) as Hacc. fold st1 in Hacc.
  destruct (assn_fold_spec A ps i_h (visit i_h (fTrkIDECollector st1)) st1 Hok1)
    as (_ & Hlk & Hout).
  { intros kv Hkv. rewrite (Hvisit i_h (fTrkIDECollector st1)) in Hkv.
    by apply trkide_loop_collector_cached. }
  split; [by rewrite Hlk|].
  rewrite Hout. unfold st1 at 1. rewrite trkide_loop_assn. simpl. f_equal.
  unfold hit_assns_in. destruct Hacc as (_&_&_&_&_&_&Hc). rewrite <- Hc.
  apply omap_pointwise. intros. by apply assn_for_same_acc, trkide_loop_reset.
Qed.

Lemma hit_loop_in_spec ps i_h hitList st :
  cache_ok ps (trkid_lookup st) ->
  MCPartHitassn (hit_loop_in A Hit HitToTrackID visit ps i_h hitList st) =
    MCPartHitassn st ++ event_assns_in A Hit HitToTrackID visit ps i_h hitList.
Proof.
  revert i_h st. induction hitList as [|h rest IH]; intros i_h st Hok; simpl.
  - by rewrite app_nil_r.
  - destruct (hit_body_in_spec ps i_h h st Hok) as (Hok' & Hout).
    by rewrite IH, Hout, app_assoc.
Qed.

Lemma produce_in_put ps hitList :
  produce_in A Hit HitToTrackID visit
    {| isRealData := false; mcparticles := Some ps; hits := Some hitList |} =
  Returns {| cerr := []; put := Some (event_assns_in A Hit HitToTrackID visit ps 0 hitList) |}.
Proof.
  unfold produce_in. simpl. do 3 f_equal.
  by rewrite hit_loop_in_spec by apply cache_ok_empty.
Qed.

Lemma elem_of_event_assns_in ps i_h hitList a :
  a ∈ event_assns_in A Hit HitToTrackID visit ps i_h hitList ->
  exists j h, hitList !! j = Some h /\
              a ∈ hit_assns_in A visit ps (i_h + j) (HitToTrackID h).
Proof.
  revert i_h. induction hitList as [|h rest IH]; intros i_h; simpl.
  - by intros ?%elem_of_nil.
  - rewrite elem_of_app. intros [Ha|Ha].
    + exists 0%nat, h. by rewrite Nat.add_0_r.
    + apply IH in Ha as (j & h' & Hj & Ha). exists (S j), h'.
      by rewrite Nat.add_succ_r.
Qed.

Lemma assns_of_hit_event_in ps i_h hitList j h :
  hitList !! j = Some h ->
  assns_of_hit (i_h + j) (event_assns_in A Hit HitToTrackID visit ps i_h hitList) =
  hit_assns_in A visit ps (i_h + j) (HitToTrackID h).
Proof.
  unfold assns_of_hit.
  revert i_h j. induction hitList as [|h0 rest IH]; intros i_h j Hj; [done|].
  simpl. rewrite filter_app. destruct j as [|j]; simpl in Hj.
  - injection Hj as ->. rewrite Nat.add_0_r.
    rewrite filter_all by (intros a Ha; by apply hit_assns_in_key in Ha).
    rewrite filter_none; [by rewrite app_nil_r|].
    intros a (j & h' & _ & Ha%hit_assns_in_key)%elem_of_event_assns_in. lia.
  - rewrite filter_none by (intros a Ha%hit_assns_in_key; lia).
    rewrite <- Nat.add_succ_comm. by apply IH.
Qed.

(** What [produce_in] puts for one hit. *)
Lemma produce_in_hit ps hitList j h :
  hitList !! j = Some h ->
  exists out,
    produce_in A Hit HitToTrackID visit
      {| isRealData := false; mcparticles := Some ps; hits := Some hitList |} =
      Returns {| cerr := []; put := Some out |} /\
    assns_of_hit j out ≡ₚ hit_assns ps j (HitToTrackID h).
Proof.
  intros Hj. eexists. split; [apply produce_in_put|].
  pose proof (assns_of_hit_event_in ps 0 hitList j h Hj) as Hpart. simpl in Hpart.
  rewrite Hpart. apply hit_assns_in_perm.
Qed.
Lemma event_assns_in_perm ps i_h hitList :
  event_assns_in A Hit HitToTrackID visit ps i_h hitList ≡ₚ
  event_assns HitToTrackID ps i_h hitList.
Proof.
  revert i_h. induction hitList as [|h rest IH]; intros i_h; [done|].
  simpl. apply Permutation_app; [apply hit_assns_in_perm|apply IH].
Qed.

Lemma fmap_constant {X Y} (f : X -> Y) (c : Y) (l : list X) :
  (forall x, x ∈ l -> f x = c) -> f <$> l = replicate (length l) c.
Proof.
  induction l as [|x l IH]; intros Hc; [done|].
  rewrite fmap_cons. simpl. rewrite Hc by (by left). f_equal.
  apply IH. intros y Hy. apply Hc. by right.
Qed.

(** The hit keys of the written collection do not depend on the order. *)
Lemma event_assns_in_keys ps i_h hitList :
  hit_key <$> event_assns_in A Hit HitToTrackID visit ps i_h hitList =
  hit_key <$> event_assns HitToTrackID ps i_h hitList.
Proof.
  revert i_h. induction hitList as [|h rest IH]; intros i_h; [done|].
  simpl. rewrite !fmap_app, IH. f_equal.
  rewrite (fmap_constant hit_key i_h (hit_assns_in A visit ps i_h (HitToTrackID h)))
    by (intros a Ha; by apply hit_assns_in_key in Ha).
  rewrite (fmap_constant hit_key i_h (hit_assns ps i_h (HitToTrackID h)))
    by (intros a Ha; by apply hit_assns_key in Ha).
  f_equal. apply Permutation_length, hit_assns_in_perm.
Qed.
End Visiting.

(** [produce] is [produce_in] with the order of [map_to_list]. *)
Lemma hit_loop_in_map_order (A : Arith) (Hit : Type)
    (HitToTrackID : Hit -> list (TrackIDE A)) (ps : list MCParticle)
    (i_h : nat) (hitList : list Hit) (st : Locals A) :
  hit_loop_in A Hit HitToTrackID in_map_order ps i_h hitList st =
  hit_loop A Hit HitToTrackID ps i_h hitList st.
Proof.
  revert i_h st. induction hitList as [|h rest IH]; intros i_h st; [done|].
  simpl. by rewrite IH.
Qed.

Lemma produce_in_map_order (A : Arith) (Hit : Type)
    (HitToTrackID : Hit -> list (TrackIDE A)) (evt : Event Hit) :
  produce_in A Hit HitToTrackID in_map_order evt = produce A Hit HitToTrackID evt.
Proof.
  unfold produce_in, produce.
  destruct (isRealData evt); [done|].
  destruct (mcparticles evt) as [ps|]; [|done].
  destruct (hits evt) as [hitList|]; [|done].
  by rewrite hit_loop_in_map_order.
Qed.

(** ** A hit with a single record *)

Section Single.
Variable A : Arith.
Implicit Types (ps : list MCParticle) (t : TrackIDE A).

Lemma assn_of_track ps i_h (recs : list (TrackIDE A)) k info :
  fTrkIDECollector (collected recs) !! k = Some info ->
  {| hit_key := i_h; mcpart_key := resolve ps k;
     data := bthmd A (collected recs) (k, info) |} =
  track_assn ps i_h recs k.
Proof.
  intros Hk. unfold bthmd, track_assn. simpl.
  destruct (collected_sums A recs k info Hk) as [-> ->].
  by destruct (totals_collected A recs) as [-> ->].
Qed.

Lemma hit_assns_single ps i_h t :
  resolve ps (trackID t) ≠ -1 ->
  hit_assns ps i_h [t] = [track_assn ps i_h [t] (trackID t)].
Proof.
  intros Hr.
  assert (track_ids [t] = {[trackID t]}) as Hids.
  { unfold track_ids. simpl. apply set_eq. intros x. set_unfold. tauto. }
  pose proof (hit_assns_length A ps i_h [t]) as Hlen.
  rewrite Hids in Hlen.
  rewrite (filter_singleton_True_L (C:=gset Z) (fun k => resolve ps k ≠ -1)
             (trackID t) Hr), size_singleton in Hlen.
  destruct (hit_assns ps i_h [t]) as [|a [|b l]] eqn:Hl; [done| |done].
  assert (a ∈ hit_assns ps i_h [t]) as Ha by (rewrite Hl; by left).
  apply elem_of_hit_assns in Ha as (k & info & Hk & _ & ->).
  assert (k = trackID t) as ->.
  { assert (k ∈ dom (fTrkIDECollector (collected [t]))) as Hdom
      by (apply elem_of_dom; eauto).
    rewrite collected_dom, Hids in Hdom. by apply elem_of_singleton in Hdom. }
  by rewrite (assn_of_track ps i_h [t] (trackID t) info Hk).
Qed.

Lemma track_sums_single t :
  track_energy_sum (trackID t) [t] = flt_add A (flt_zero A) (energy t) /\
  track_charge_sum (trackID t) [t] = flt_add A (flt_zero A) (numElectrons t).
Proof.
  unfold track_energy_sum, track_charge_sum.
  by rewrite filter_cons_True by done.
Qed.
End Single.

(** ** A number divided by itself *)

Section IeeeOne.
Import Ieee.

Lemma SFdiv_core_self (m : positive) (e : Z) :
  SFdiv_core_binary prec64 emax64 (Z.pos m) e (Z.pos m) e = (2 ^ 53, -53, loc_Exact).
Proof.
  unfold SFdiv_core_binary. cbv zeta.
  rewrite !Z.sub_diag.
  change (Z.min (fexp prec64 emax64 0) 0) with (-53).
  change (0 - -53) with 53. cbv iota.
  rewrite Z.shiftl_mul_pow2 by lia.
  assert (Z.pos m * 2 ^ 53 / Z.pos m = 2 ^ 53) as Hq
    by (rewrite Z.mul_comm; apply Z.div_mul; lia).
  assert ((Z.pos m * 2 ^ 53) mod Z.pos m = 0) as Hr
    by (rewrite Z.mul_comm; apply Z.mod_mul; lia).
  unfold Z.div, Z.modulo in Hq, Hr.
  destruct (Z.div_eucl (Z.pos m * 2 ^ 53) (Z.pos m)) as [q r].
  subst q r. f_equal.
  unfold new_location, new_location_even, new_location_odd.
  by destruct (Z.even (Z.pos m)).
Qed.

(** A finite number that is not zero, divided by itself in binary64,
    is 1. *)
Lemma SFdiv_self (s : bool) (m : positive) (e : Z) :
  SFdiv prec64 emax64 (S754_finite s m e) (S754_finite s m e) =
  S754_finite false (2 ^ 52) (-52).
Proof.
  unfold SFdiv. rewrite SFdiv_core_self. by destruct s.
Qed.

Lemma promote_finite_shape (s : bool) (m : positive) (e : Z) :
  exists m' e', promote (S754_finite s m e) = S754_finite s m' e'.
Proof.
  unfold promote.
  destruct (shl_align m e (fexp prec64 emax64 (Z.pos (digits2_pos m) + e))) as [m' e'].
  by exists m', e'.
Qed.

(** The fraction of a sum that is the only summand of the total. *)
Lemma fraction_of_single (x : spec_float) (s : bool) (m : positive) (e : Z) :
  x = S754_finite s m e ->
  to_flt IEEE
    (dbl_div IEEE (to_dbl IEEE (flt_add IEEE (flt_zero IEEE) x))
       (dbl_add IEEE (dbl_zero IEEE) (to_dbl IEEE x))) = f32 1.
Proof.
  intros ->.
  change (flt_add IEEE (flt_zero IEEE) (S754_finite s m e)) with (S754_finite s m e).
  change (to_dbl IEEE (S754_finite s m e)) with (promote (S754_finite s m e)).
  destruct (promote_finite_shape s m e) as (m' & e' & ->).
  change (dbl_add IEEE (dbl_zero IEEE) (S754_finite s m' e')) with (S754_finite s m' e').
  change (dbl_div IEEE (S754_finite s m' e') (S754_finite s m' e'))
    with (SFdiv prec64 emax64 (S754_finite s m' e') (S754_finite s m' e')).
  by rewrite SFdiv_self.
Qed.
End IeeeOne.

(** ** Properties of [produce] *)

(** C6.  On an event of real data [produce] returns at once: nothing is
    written to [cerr] and no collection is put into the event.  A
    collection is put only for simulated events. *)
Theorem real_data_is_skipped (A : Arith) (Hit : Type)
    (HitToTrackID : Hit -> list (TrackIDE A)) (evt : Event Hit) :
  (isRealData evt = true ->
   produce A Hit HitToTrackID evt = Returns {| cerr := []; put := None |}) /\
  (forall eff out,
     produce A Hit HitToTrackID evt = Returns eff -> put eff = Some out ->
     isRealData evt = false).
Proof.
  unfold produce. split.
  - by intros ->.
  - intros eff out. destruct (isRealData evt); [|done].
    by intros [= <-].
Qed.

Lemma real_data_is_skipped_witness :
  isRealData real_event = true /\
  produce IEEE nat scenario_bt real_event = Returns {| cerr := []; put := None |}.
Proof.
  split; [reflexivity|].
  apply (proj1 (real_data_is_skipped IEEE nat scenario_bt real_event)). reflexivity.
Defined.

(** C5.  When the check of the hit handle is reached (the event is
    simulated and the particle collection was found) and the hit collection
    is absent, [produce] writes the message to [cerr] and returns without
    putting a collection, whatever the back tracker would answer. *)
Theorem invalid_hit_handle_aborts (A : Arith) (Hit : Type)
    (HitToTrackID : Hit -> list (TrackIDE A)) (evt : Event Hit)
    (mcpartList : list MCParticle) :
  isRealData evt = false ->
  mcparticles evt = Some mcpartList ->
  hits evt = None ->
  produce A Hit HitToTrackID evt =
    Returns {| cerr := ["Hit handle is not valid!"%string]; put := None |}.
Proof. unfold produce. by intros -> -> ->. Qed.

Lemma invalid_hit_handle_aborts_witness :
  isRealData event_without_hits = false /\
  mcparticles event_without_hits = Some scenario_particles /\
  hits event_without_hits = None /\
  produce IEEE nat scenario_bt event_without_hits =
    Returns {| cerr := ["Hit handle is not valid!"%string]; put := None |}.
Proof.
  repeat (split; [reflexivity|]).
  apply (invalid_hit_handle_aborts IEEE nat scenario_bt event_without_hits
           scenario_particles); reflexivity.
Defined.

(** C8.  A hit without contribution records leaves the written
    associations and the cache as they were: its iteration ends in the
    reset state, the loop goes on with the remaining hits from there, and
    the collection [produce] puts has no association of that hit. *)
Theorem hit_without_records (A : Arith) (Hit : Type)
    (HitToTrackID : Hit -> list (TrackIDE A)) (mcpartList : list MCParticle)
    (h : Hit) :
  HitToTrackID h = [] ->
  (forall i_h st rest,
     hit_body A Hit HitToTrackID mcpartList i_h h st = reset A st /\
     MCPartHitassn (hit_body A Hit HitToTrackID mcpartList i_h h st) = MCPartHitassn st /\
     trkid_lookup (hit_body A Hit HitToTrackID mcpartList i_h h st) = trkid_lookup st /\
     hit_loop A Hit HitToTrackID mcpartList i_h (h :: rest) st =
       hit_loop A Hit HitToTrackID mcpartList (S i_h) rest (reset A st)) /\
  (forall before after,
     exists out,
       produce A Hit HitToTrackID
         {| isRealData := false; mcparticles := Some mcpartList;
            hits := Some (before ++ h :: after) |} =
         Returns {| cerr := []; put := Some out |} /\
       assns_of_hit (length before) out = []).
Proof.
  intros Hh. split.
  - intros i_h st rest.
    assert (hit_body A Hit HitToTrackID mcpartList i_h h st = reset A st) as Hbody.
    { unfold hit_body, assn_loop. rewrite Hh. simpl. by rewrite map_to_list_empty. }
    simpl. by rewrite Hbody.
  - intros before after.
    destruct (produce_hit A Hit HitToTrackID mcpartList (before ++ h :: after)
                (length before) h) as (out & Hout & Hpart).
    { by rewrite list_lookup_middle. }
    exists out. split; [done|]. by rewrite Hpart, Hh, hit_assns_nil.
Qed.

Lemma hit_without_records_witness :
  scenario_bt 1%nat = [] /\
  exists out,
    produce IEEE nat scenario_bt (simulated_event scenario_particles 3) =
      Returns {| cerr := []; put := Some out |} /\
    assns_of_hit 1 out = [].
Proof.
  split; [reflexivity|].
  apply (proj2 (hit_without_records IEEE nat scenario_bt scenario_particles 1%nat
                  eq_refl) [0%nat] [2%nat]).
Defined.

(** C7.  When every track id among the records of a hit is carried by a
    particle (and the particle collection has at most 2^31 elements, so
    that [(int)i_p] is the position), the collection [produce] puts has as
    many associations of that hit as its records have distinct track
    ids. *)
Theorem one_association_per_track_id (A : Arith) (Hit : Type)
    (HitToTrackID : Hit -> list (TrackIDE A)) (mcpartList : list MCParticle)
    (hitList : list Hit) (j : nat) (h : Hit) :
  Z.of_nat (length mcpartList) <= 2 ^ 31 ->
  hitList !! j = Some h ->
  Forall (fun t => carried mcpartList (trackID t)) (HitToTrackID h) ->
  exists out,
    produce A Hit HitToTrackID
      {| isRealData := false; mcparticles := Some mcpartList; hits := Some hitList |} =
      Returns {| cerr := []; put := Some out |} /\
    length (assns_of_hit j out) = size (track_ids (HitToTrackID h)).
Proof.
  intros Hlen Hj Hall.
  destruct (produce_hit A Hit HitToTrackID mcpartList hitList j h Hj) as (out & Hout & Hpart).
  exists out. split; [done|].
  rewrite Hpart, hit_assns_length_carried by done. f_equal.
  apply set_eq. intros k. rewrite elem_of_filter. split; [by intros [_ ?]|].
  intros Hk. split; [|done].
  apply elem_of_track_ids in Hk as (t & Ht & <-).
  rewrite Forall_forall in Hall. by apply Hall.
Qed.

Lemma one_association_per_track_id_witness :
  exists out,
    produce IEEE nat scenario_bt (simulated_event scenario_particles 2) =
      Returns {| cerr := []; put := Some out |} /\
    length (assns_of_hit 0 out) = size (track_ids scenario_records).
Proof.
  apply (one_association_per_track_id IEEE nat scenario_bt scenario_particles
           [0%nat; 1%nat] 0 0%nat).
  - vm_compute. discriminate.
  - reflexivity.
  - apply (bool_decide_unpack _). vm_compute. exact I.
Defined.

(** C10.  With at most 2^31 particles.  Every track id of a record of a
    hit is bound in the cache after the loop on hits: to [-1] when no
    particle carries it, and otherwise to the lowest position of a
    particle that carries it; and nothing else is ever bound: every cached
    resolution is [-1] for a track id that no particle carries and
    otherwise the lowest position of a carrier.  In the collection
    [produce] puts, every association references, for a track id of a
    record of its hit, the particle at the lowest position that carries
    this id; and for a track id that some particle carries there is one
    position, the lowest of a carrier, such that every hit with a record
    of this id has an association that references the particle at this
    position.  Particles at later positions with the same id are never
    referenced. *)
Theorem lowest_position_is_bound (A : Arith) (Hit : Type)
    (HitToTrackID : Hit -> list (TrackIDE A)) (mcpartList : list MCParticle)
    (hitList : list Hit) :
  Z.of_nat (length mcpartList) <= 2 ^ 31 ->
  (forall k v,
     trkid_lookup (hit_loop A Hit HitToTrackID mcpartList 0 hitList (initial A)) !! k
       = Some v ->
     (v = -1 /\ ~ carried mcpartList k) \/ first_carrier mcpartList k v) /\
  (forall j h t,
     hitList !! j = Some h -> t ∈ HitToTrackID h -> ~ carried mcpartList (trackID t) ->
     trkid_lookup (hit_loop A Hit HitToTrackID mcpartList 0 hitList (initial A))
       !! trackID t = Some (-1)) /\
  exists out,
    produce A Hit HitToTrackID
      {| isRealData := false; mcparticles := Some mcpartList; hits := Some hitList |} =
      Returns {| cerr := []; put := Some out |} /\
    (forall a, a ∈ out ->
       exists h t,
         hitList !! hit_key a = Some h /\ t ∈ HitToTrackID h /\
         first_carrier mcpartList (trackID t) (mcpart_key a)) /\
    (forall k, carried mcpartList k ->
       exists v,
         first_carrier mcpartList k v /\
         forall j h t,
           hitList !! j = Some h -> t ∈ HitToTrackID h -> trackID t = k ->
           trkid_lookup (hit_loop A Hit HitToTrackID mcpartList 0 hitList (initial A))
             !! k = Some v /\
           exists a, a ∈ assns_of_hit j out /\ mcpart_key a = v).
Proof.
  intros Hlen.
  assert (forall j h t,
            hitList !! j = Some h -> t ∈ HitToTrackID h ->
            trkid_lookup (hit_loop A Hit HitToTrackID mcpartList 0 hitList (initial A))
              !! trackID t = Some (resolve mcpartList (trackID t))) as Hbound.
  { intros j h t Hj Ht.
    assert (trackID t ∈
              dom (trkid_lookup
                     (hit_loop A Hit HitToTrackID mcpartList 0 hitList (initial A))))
      as [v Hv]%elem_of_dom.
    { rewrite hit_loop_lookup_dom. apply elem_of_union. left.
      apply elem_of_union_list. exists (track_ids (HitToTrackID h)). split.
      - apply list_elem_of_fmap. exists h. split; [done|].
        by eapply list_elem_of_lookup_2.
      - apply elem_of_track_ids. by exists t. }
    rewrite Hv. f_equal.
    by apply (hit_loop_cache_ok A Hit HitToTrackID mcpartList 0 hitList (initial A)
                (cache_ok_empty mcpartList) (trackID t) v). }
  split_and!.
  - intros k v Hv.
    pose proof (hit_loop_cache_ok A Hit HitToTrackID mcpartList 0 hitList (initial A)
                  (cache_ok_empty mcpartList) k v Hv) as ->.
    destruct (decide (resolve mcpartList k = -1)) as [Hr|Hr].
    + left. split; [done|]. by apply resolve_not_carried.
    + right. by apply resolve_first_carrier.
  - intros j h t Hj Ht Hnone. rewrite (Hbound j h t Hj Ht). f_equal.
    destruct (decide (resolve mcpartList (trackID t) = -1)) as [Hr|Hr]; [done|].
    by apply (resolve_carried mcpartList _ Hlen) in Hr.
  - eexists. split; [apply produce_put|]. split.
    + intros a (j & h & Hj & Ha)%elem_of_event_assns. simpl in Ha.
      apply elem_of_hit_assns in Ha as (k & info & Hk & Hr & ->). simpl.
      apply collected_key_in_records in Hk as (t & Ht & <-).
      exists h, t. split_and!; [done|done|]. by apply resolve_first_carrier.
    + intros k Hk. apply (resolve_carried mcpartList k Hlen) in Hk.
      exists (resolve mcpartList k). split; [by apply resolve_first_carrier|].
      intros j h t Hj Ht <-. split; [by apply (Hbound j h t)|].
      pose proof (assns_of_hit_event A Hit HitToTrackID mcpartList 0 hitList j h Hj)
        as Hpart.
      simpl in Hpart. rewrite Hpart.
      assert (is_Some (fTrkIDECollector (collected (HitToTrackID h)) !! trackID t))
        as [info Hinfo].
      { apply elem_of_dom. rewrite collected_dom. apply elem_of_track_ids. by exists t. }
      eexists. split; [apply elem_of_hit_assns; by exists (trackID t), info|done].
Qed.

Lemma lowest_position_is_bound_witness :
  exists out,
    produce IEEE nat scenario_bt (simulated_event scenario_particles 2) =
      Returns {| cerr := []; put := Some out |} /\
    (forall a, a ∈ out ->
       exists h t,
         [0%nat; 1%nat] !! hit_key a = Some h /\ t ∈ scenario_bt h /\
         first_carrier scenario_particles (trackID t) (mcpart_key a)) /\
    exists v,
      first_carrier scenario_particles 5 v /\
      trkid_lookup (hit_loop IEEE nat scenario_bt scenario_particles 0
                      [0%nat; 1%nat] (initial IEEE)) !! 5 = Some v /\
      exists a, a ∈ assns_of_hit 0 out /\ mcpart_key a = v.
Proof.
  destruct (lowest_position_is_bound IEEE nat scenario_bt scenario_particles
              [0%nat; 1%nat]) as (_ & _ & out & Hout & Hall & Hex).
  { vm_compute. discriminate. }
  exists out. split; [exact Hout|]. split; [exact Hall|].
  destruct (Hex 5) as (v & Hv & Hrec).
  { apply (bool_decide_unpack _). vm_compute. exact I. }
  exists v. split; [exact Hv|].
  apply (Hrec 0%nat 0%nat (ide 5 3 1)); [reflexivity| |reflexivity].
  left.
Defined.

(** C4.  Let a record [t] of a hit have a track id that no particle
    carries.  The collector has an element for this id, but every
    association [produce] puts for the hit is that of a collector element
    with another track id; its fractions are the sums of that element
    divided by the totals of the hit, and these totals contain the energy
    and the charge of [t]. *)
Theorem unresolved_track_id_is_skipped (A : Arith) (Hit : Type)
    (HitToTrackID : Hit -> list (TrackIDE A)) (mcpartList : list MCParticle)
    (hitList : list Hit) (j : nat) (h : Hit)
    (pre : list (TrackIDE A)) (t : TrackIDE A) (post : list (TrackIDE A)) :
  hitList !! j = Some h ->
  HitToTrackID h = pre ++ t :: post ->
  ~ carried mcpartList (trackID t) ->
  exists out,
    produce A Hit HitToTrackID
      {| isRealData := false; mcparticles := Some mcpartList; hits := Some hitList |} =
      Returns {| cerr := []; put := Some out |} /\
    is_Some (fTrkIDECollector (collected (HitToTrackID h)) !! trackID t) /\
    (forall a, a ∈ assns_of_hit j out ->
       exists k info,
         k ≠ trackID t /\
         fTrkIDECollector (collected (HitToTrackID h)) !! k = Some info /\
         mcpart_key a = resolve mcpartList k /\
         ideFraction (data a) =
           to_flt A (dbl_div A (to_dbl A (E info)) (total_energy (HitToTrackID h))) /\
         ideNFraction (data a) =
           to_flt A (dbl_div A (to_dbl A (NumElectrons info))
                       (total_charge (HitToTrackID h)))) /\
    total_energy (HitToTrackID h) =
      fold_left (fun acc t' => dbl_add A acc (to_dbl A (energy t'))) post
        (dbl_add A (total_energy pre) (to_dbl A (energy t))) /\
    total_charge (HitToTrackID h) =
      fold_left (fun acc t' => dbl_add A acc (to_dbl A (numElectrons t'))) post
        (dbl_add A (total_charge pre) (to_dbl A (numElectrons t))).
Proof.
  intros Hj Hrecs Hnone.
  destruct (produce_hit A Hit HitToTrackID mcpartList hitList j h Hj) as (out & Hout & Hpart).
  exists out. split; [done|]. split_and!.
  - apply elem_of_dom. rewrite collected_dom. apply elem_of_track_ids.
    exists t. split; [|done]. rewrite Hrecs. set_solver.
  - intros a Ha. rewrite Hpart in Ha.
    apply elem_of_hit_assns in Ha as (k & info & Hk & Hr & ->).
    exists k, info. simpl.
    destruct (totals_collected A (HitToTrackID h)) as [-> ->].
    split_and!; try done.
    intros ->. apply Hr, resolve_None. intros p Hp Hcarry. apply Hnone.
    apply Exists_exists. by exists p.
  - rewrite Hrecs. unfold total_energy. by rewrite fold_left_app.
  - rewrite Hrecs. unfold total_charge. by rewrite fold_left_app.
Qed.

Lemma unresolved_track_id_is_skipped_witness :
  exists out,
    produce IEEE nat mixed_bt (simulated_event mixed_particles 1) =
      Returns {| cerr := []; put := Some out |} /\
    is_Some (fTrkIDECollector (collected mixed_records) !! 9) /\
    (forall a, a ∈ assns_of_hit 0 out ->
       exists k info,
         k ≠ 9 /\
         fTrkIDECollector (collected mixed_records) !! k = Some info /\
         mcpart_key a = resolve mixed_particles k /\
         ideFraction (data a) =
           to_flt IEEE (dbl_div IEEE (to_dbl IEEE (E info)) (total_energy mixed_records)) /\
         ideNFraction (data a) =
           to_flt IEEE (dbl_div IEEE (to_dbl IEEE (NumElectrons info))
                          (total_charge mixed_records))) /\
    total_energy mixed_records =
      fold_left (fun acc t' => dbl_add IEEE acc (to_dbl IEEE (energy t'))) []
        (dbl_add IEEE (total_energy [ide 5 1 1]) (to_dbl IEEE (energy (ide 9 3 3)))) /\
    total_charge mixed_records =
      fold_left (fun acc t' => dbl_add IEEE acc (to_dbl IEEE (numElectrons t'))) []
        (dbl_add IEEE (total_charge [ide 5 1 1]) (to_dbl IEEE (numElectrons (ide 9 3 3)))).
Proof.
  apply (unresolved_track_id_is_skipped IEEE nat mixed_bt mixed_particles [0%nat] 0 0%nat
           [ide 5 1 1] (ide 9 3 3) []).
  - reflexivity.
  - reflexivity.
  - intros Hc. apply (bool_decide_pack _) in Hc. vm_compute in Hc. exact Hc.
Defined.

(** C2 (as amended).  Among the associations [produce] puts for a hit at
    most one is flagged by energy, and exactly one is if and only if the
    track id that holds the maximum of the energy sums after the loop on
    the records is the id of a record of the hit and resolves to a
    particle; likewise for the flag by charge. *)
Theorem dominant_flag_at_most_once (A : Arith) (Hit : Type)
    (HitToTrackID : Hit -> list (TrackIDE A)) (mcpartList : list MCParticle)
    (hitList : list Hit) (j : nat) (h : Hit) :
  hitList !! j = Some h ->
  exists out,
    produce A Hit HitToTrackID
      {| isRealData := false; mcparticles := Some mcpartList; hits := Some hitList |} =
      Returns {| cerr := []; put := Some out |} /\
    (length (dominant_by_energy (assns_of_hit j out)) <= 1)%nat /\
    (length (dominant_by_charge (assns_of_hit j out)) <= 1)%nat /\
    (length (dominant_by_energy (assns_of_hit j out)) = 1%nat <->
     maxtrkid (collected (HitToTrackID h)) ∈ track_ids (HitToTrackID h) /\
     resolve mcpartList (maxtrkid (collected (HitToTrackID h))) ≠ -1) /\
    (length (dominant_by_charge (assns_of_hit j out)) = 1%nat <->
     maxntrkid (collected (HitToTrackID h)) ∈ track_ids (HitToTrackID h) /\
     resolve mcpartList (maxntrkid (collected (HitToTrackID h))) ≠ -1).
Proof.
  intros Hj.
  destruct (produce_hit A Hit HitToTrackID mcpartList hitList j h Hj) as (out & Hout & Hpart).
  exists out. split; [done|]. rewrite Hpart.
  destruct (hit_assns_dominant A mcpartList j (HitToTrackID h)) as [-> ->].
  split_and!; repeat case_decide; try lia; try tauto; split; (lia || done).
Qed.

Lemma dominant_flag_at_most_once_witness :
  exists out,
    produce IEEE nat scenario_bt (simulated_event scenario_particles 2) =
      Returns {| cerr := []; put := Some out |} /\
    (length (dominant_by_energy (assns_of_hit 0 out)) <= 1)%nat /\
    (length (dominant_by_charge (assns_of_hit 0 out)) <= 1)%nat /\
    (length (dominant_by_energy (assns_of_hit 0 out)) = 1%nat <->
     maxtrkid (collected (scenario_bt 0)) ∈ track_ids (scenario_bt 0) /\
     resolve scenario_particles (maxtrkid (collected (scenario_bt 0))) ≠ -1) /\
    (length (dominant_by_charge (assns_of_hit 0 out)) = 1%nat <->
     maxntrkid (collected (scenario_bt 0)) ∈ track_ids (scenario_bt 0) /\
     resolve scenario_particles (maxntrkid (collected (scenario_bt 0))) ≠ -1).
Proof.
  apply (dominant_flag_at_most_once IEEE nat scenario_bt scenario_particles
           [0%nat; 1%nat] 0 0%nat).
  reflexivity.
Defined.

(** C2, as stated, fails: the hit of [mixed_bt] has one association, the
    one of track 5, while the maxima are held by track 9, which no particle
    carries; no association is flagged. *)
Lemma dominant_flag_counterexample :
  produce IEEE nat mixed_bt (simulated_event mixed_particles 1) =
    Returns {| cerr := []; put := Some mixed_out |} /\
  assns_of_hit 0 mixed_out = mixed_out /\
  dominant_by_energy mixed_out = [] /\
  dominant_by_charge mixed_out = [] /\
  ~ exactly_one_dominant (assns_of_hit 0 mixed_out).
Proof.
  split_and!; try reflexivity.
  intros Hone. destruct Hone as [He _]; [done|]. discriminate He.
Qed.

(** C1 (as amended).  For a hit with at least one record, all of whose
    energies and charges are members of binary32 that are neither NaN nor
    negative: the flag by energy marks exactly the track id [maxtrkid];
    this id has an energy sum that no other sum exceeds; and among ids
    with equal sums it is the one whose running sum was the first to
    reach the final maximum, the maximum being raised only by a strictly
    greater sum.  The same holds for the charge, independently.  In the
    associations of the hit, whatever the particles: no association has a
    greater energy than one flagged by energy, nor a greater charge than
    one flagged by charge. *)
Theorem dominant_is_first_to_reach_maximum (trkide_list : list (TrackIDE IEEE)) :
  trkide_list ≠ [] ->
  Forall (fun t : TrackIDE IEEE =>
            Ieee.nonneg32 (energy t) = true /\ Ieee.nonneg32 (numElectrons t) = true)
         trkide_list ->
  (forall kv, isMaxIDE (bthmd IEEE (collected trkide_list) kv) = true <->
              kv.1 = maxtrkid (collected trkide_list)) /\
  energy_maximal (collected trkide_list) (maxtrkid (collected trkide_list)) /\
  energy_first_to_reach trkide_list /\
  (forall kv, isMaxIDEN (bthmd IEEE (collected trkide_list) kv) = true <->
              kv.1 = maxntrkid (collected trkide_list)) /\
  charge_maximal (collected trkide_list) (maxntrkid (collected trkide_list)) /\
  charge_first_to_reach trkide_list /\
  (forall mcpartList i_h a a',
     a ∈ hit_assns mcpartList i_h trkide_list ->
     a' ∈ hit_assns mcpartList i_h trkide_list ->
     (isMaxIDE (data a) = true ->
      Ieee.gt (Ieee.promote (bt_energy (data a'))) (Ieee.promote (bt_energy (data a)))
        = false) /\
     (isMaxIDEN (data a) = true ->
      Ieee.gt (Ieee.promote (bt_numElectrons (data a')))
              (Ieee.promote (bt_numElectrons (data a))) = false)).
Proof.
  intros Hne Hall.
  assert (Forall (fun t : TrackIDE IEEE => Ieee.nonneg32 (energy t) = true) trkide_list) as He
    by (eapply Forall_impl; [exact Hall|]; by intros t [? _]).
  assert (Forall (fun t : TrackIDE IEEE => Ieee.nonneg32 (numElectrons t) = true)
            trkide_list) as Hn
    by (eapply Forall_impl; [exact Hall|]; by intros t [_ ?]).
  split_and!.
  - intros kv. simpl. apply bool_decide_eq_true.
  - by apply (energy_maximal_collected IEEE _ _ IEEE_laws).
  - by apply (energy_first_to_reach_collected IEEE _ _ IEEE_laws).
  - intros kv. simpl. apply bool_decide_eq_true.
  - by apply (charge_maximal_collected IEEE _ _ IEEE_laws).
  - by apply (charge_first_to_reach_collected IEEE _ _ IEEE_laws).
  - intros ps i_h a a' (k & info & Hk & _ & ->)%elem_of_hit_assns
      (k' & info' & Hk' & _ & ->)%elem_of_hit_assns. simpl. split.
    + intros ->%bool_decide_eq_true.
      destruct (energy_maximal_collected IEEE _ _ IEEE_laws trkide_list Hne He)
        as (info_max & Hmax & Hle).
      rewrite Hk in Hmax. injection Hmax as <-. by apply (Hle k').
    + intros ->%bool_decide_eq_true.
      destruct (charge_maximal_collected IEEE _ _ IEEE_laws trkide_list Hne Hn)
        as (info_max & Hmax & Hle).
      rewrite Hk in Hmax. injection Hmax as <-. by apply (Hle k').
Qed.

Lemma dominant_is_first_to_reach_maximum_witness :
  maxtrkid (collected tie_records) = 7 /\
  energy_maximal (collected tie_records) 7 /\
  energy_first_to_reach tie_records /\
  charge_maximal (collected tie_records) 7 /\
  charge_first_to_reach tie_records.
Proof.
  split; [reflexivity|].
  destruct (dominant_is_first_to_reach_maximum tie_records)
    as (_ & Hemax & Hefirst & _ & Hnmax & Hnfirst & _).
  - discriminate.
  - repeat (constructor; [split; reflexivity|]). constructor.
  - repeat split; assumption.
Defined.

(** C1, as stated, fails on ties: in [tie_records] track 5 is the first
    id encountered and ends with the energy sum 3, as track 7 does, but
    the flag goes to track 7, whose sum reached 3 first. *)
Lemma tie_counterexample :
  maxtrkid (collected tie_records) = 7 /\
  fTrkIDECollector (collected tie_records) !! 5 =
    Some (Build_TrackIDEinfo IEEE (f32 3) (f32 3)) /\
  fTrkIDECollector (collected tie_records) !! 7 =
    Some (Build_TrackIDEinfo IEEE (f32 3) (f32 3)) /\
  ~ tie_goes_to_first_seen tie_records.
Proof.
  split_and!; try reflexivity.
  intros Htie.
  destruct (Htie 5 (Build_TrackIDEinfo IEEE (f32 3) (f32 3))
                   (Build_TrackIDEinfo IEEE (f32 3) (f32 3)))
    as (pre & t & post & Hsplit & Hid & Hpre); try reflexivity.
  change (maxtrkid (collected tie_records)) with 7 in Hid.
  destruct pre as [|t0 pre].
  - injection Hsplit as <- _. discriminate Hid.
  - injection Hsplit as <- _. apply (Hpre (ide 5 1 1)); [by left|reflexivity].
Qed.



(** C3 (as amended).  The fractions of the associations [produce] puts
    for a hit: the energy fraction of an association is the energy it
    carries (the binary32 sum of the energies of the records of one track
    id of the hit that resolves), promoted to binary64, divided in
    binary64 by the total energy of the hit (the binary64 sum of the
    energies of all records of the hit, whether their track ids resolve
    or not), and rounded to binary32; likewise for the charge.  Nothing
    makes these fractions add up to 1 in general.  They do for a hit with
    a single record whose track id resolves: the hit has one association,
    and its energy fraction is exactly 1 when the energy of the record is
    finite and not zero, and its charge fraction is exactly 1 when the
    charge of the record is finite and not zero. *)
Theorem fraction_is_sum_over_total (Hit : Type)
    (HitToTrackID : Hit -> list (TrackIDE IEEE)) (mcpartList : list MCParticle)
    (hitList : list Hit) (j : nat) (h : Hit) :
  hitList !! j = Some h ->
  exists out,
    produce IEEE Hit HitToTrackID
      {| isRealData := false; mcparticles := Some mcpartList; hits := Some hitList |} =
      Returns {| cerr := []; put := Some out |} /\
    (forall a, a ∈ assns_of_hit j out ->
       (exists k, k ∈ track_ids (HitToTrackID h) /\
          resolve mcpartList k ≠ -1 /\ mcpart_key a = resolve mcpartList k /\
          bt_energy (data a) = track_energy_sum k (HitToTrackID h) /\
          bt_numElectrons (data a) = track_charge_sum k (HitToTrackID h)) /\
       ideFraction (data a) =
         Ieee.narrow (SFdiv Ieee.prec64 Ieee.emax64
                        (Ieee.promote (bt_energy (data a)))
                        (total_energy (HitToTrackID h))) /\
       ideNFraction (data a) =
         Ieee.narrow (SFdiv Ieee.prec64 Ieee.emax64
                        (Ieee.promote (bt_numElectrons (data a)))
                        (total_charge (HitToTrackID h)))) /\
    (forall t, HitToTrackID h = [t] -> resolve mcpartList (trackID t) ≠ -1 ->
       exists a, assns_of_hit j out = [a] /\
         (forall s m e, energy t = S754_finite s m e -> ideFraction (data a) = f32 1) /\
         (forall s m e, numElectrons t = S754_finite s m e ->
            ideNFraction (data a) = f32 1)).
Proof.
  intros Hj.
  destruct (produce_hit IEEE Hit HitToTrackID mcpartList hitList j h Hj)
    as (out & Hout & Hpart).
  exists out. split; [done|]. rewrite Hpart. split.
  - intros a (k & info & Hk & Hr & ->)%elem_of_hit_assns.
    rewrite (assn_of_track IEEE mcpartList j (HitToTrackID h) k info Hk).
    split; [|done].
    exists k. split_and!; try done.
    rewrite <- collected_dom. apply elem_of_dom. by eexists.
  - intros t Hrecs Hr. rewrite Hrecs, (hit_assns_single IEEE mcpartList j t Hr).
    eexists. split; [done|].
    unfold track_assn. cbn [data ideFraction ideNFraction].
    destruct (track_sums_single IEEE t) as [-> ->].
    split; intros s m e Hfin.
    + by apply (fraction_of_single (energy t) s m e).
    + by apply (fraction_of_single (numElectrons t) s m e).
Qed.

Lemma fraction_is_sum_over_total_witness :
  exists out,
    produce IEEE nat single_bt (simulated_event scenario_particles 2) =
      Returns {| cerr := []; put := Some out |} /\
    exists a, assns_of_hit 0 out = [a] /\
      ideFraction (data a) = f32 1 /\ ideNFraction (data a) = f32 1.
Proof.
  destruct (fraction_is_sum_over_total nat single_bt scenario_particles
              [0%nat; 1%nat] 0 0%nat eq_refl) as (out & Hout & _ & Hsingle).
  exists out. split; [exact Hout|].
  destruct (Hsingle (ide 5 3 2) eq_refl) as (a & Ha & He & Hn); [discriminate|].
  exists a. split; [exact Ha|]. split.
  - apply (He false 12582912%positive (-22)). reflexivity.
  - apply (Hn false 8388608%positive (-22)). reflexivity.
Defined.

(** C3, as stated, fails: the hit of [mixed_bt] has total energy 4 and
    total charge 4, both strictly positive, and its only association has
    the fractions 1/4: the share of track 9, which no particle carries, is
    in the totals but in no association. *)
Lemma fractions_counterexample :
  produce IEEE nat mixed_bt (simulated_event mixed_particles 1) =
    Returns {| cerr := []; put := Some mixed_out |} /\
  assns_of_hit 0 mixed_out = mixed_out /\
  Ieee.gt (total_energy mixed_records) (S754_zero false) = true /\
  Ieee.gt (total_charge mixed_records) (S754_zero false) = true /\
  energy_fraction_sum mixed_out = S754_finite false (2 ^ 23) (-25) /\
  charge_fraction_sum mixed_out = S754_finite false (2 ^ 23) (-25) /\
  SFcompare (energy_fraction_sum mixed_out) (f32 1) = Some Lt.
Proof. split_and!; reflexivity. Qed.

(** * Further properties *)

(** ** [reconfigure] and the constructor *)

(** X1.  [reconfigure] replaces the two labels one after the other and is
    not atomic.  When the hit label cannot be read it throws and leaves
    both members as they were; when the hit label can be read and the
    particle label cannot, it throws after the hit label has been
    replaced; when both can be read it returns with both replaced,
    whatever they were before.  The constructor yields a module exactly
    when both can be read, and then with these two labels. *)
Theorem reconfigure_is_not_atomic (ParameterSet InputTag : Type)
    (get_InputTag : ParameterSet -> string -> option InputTag)
    (p : ParameterSet) (m : Labels InputTag) :
  (get_InputTag p "HitModuleLabel"%string = None ->
   reconfigure get_InputTag p m = Thrown m) /\
  (forall hit,
     get_InputTag p "HitModuleLabel"%string = Some hit ->
     get_InputTag p "MCParticleModuleLabel"%string = None ->
     reconfigure get_InputTag p m =
       Thrown {| fHitModuleLabel := hit;
                 fMCParticleModuleLabel := fMCParticleModuleLabel m |}) /\
  (forall hit mc,
     get_InputTag p "HitModuleLabel"%string = Some hit ->
     get_InputTag p "MCParticleModuleLabel"%string = Some mc ->
     reconfigure get_InputTag p m =
       Returned {| fHitModuleLabel := hit; fMCParticleModuleLabel := mc |}) /\
  (forall default_tag m',
     construct get_InputTag default_tag p = Some m' <->
     get_InputTag p "HitModuleLabel"%string = Some (fHitModuleLabel m') /\
     get_InputTag p "MCParticleModuleLabel"%string = Some (fMCParticleModuleLabel m')).
Proof.
  unfold construct, reconfigure. split_and!.
  - by intros ->.
  - by intros hit -> ->.
  - by intros hit mc -> ->.
  - intros default_tag [h' mc']. simpl.
    destruct (get_InputTag p "HitModuleLabel"%string) as [hit|];
      [|by split; [|intros [? _]]].
    destruct (get_InputTag p "MCParticleModuleLabel"%string) as [mc|];
      [|by split; [|intros [_ ?]]].
    simpl. split; [by intros [= -> ->]|by intros [[= ->] [= ->]]].
Qed.

Lemma reconfigure_is_not_atomic_witness :
  reconfigure table_get only_hit_label old_labels =
    Thrown {| fHitModuleLabel := "gaushit"%string;
              fMCParticleModuleLabel := "g4"%string |} /\
  reconfigure table_get both_labels old_labels =
    Returned {| fHitModuleLabel := "gaushit"%string;
                fMCParticleModuleLabel := "largeant"%string |} /\
  reconfigure table_get ∅ old_labels = Thrown old_labels.
Proof.
  split_and!.
  - apply (proj1 (proj2 (reconfigure_is_not_atomic _ _ table_get only_hit_label
                           old_labels))); reflexivity.
  - apply (proj1 (proj2 (proj2 (reconfigure_is_not_atomic _ _ table_get both_labels
                                  old_labels)))); reflexivity.
  - apply (proj1 (reconfigure_is_not_atomic _ _ table_get ∅ old_labels)). reflexivity.
Defined.

(** ** The ways [produce] ends *)

(** X2.  [produce] throws exactly when the event is simulated and the
    particle collection is missing: its handle is fetched before the hit
    handle is looked at, so this also happens, without a message, when the
    hit collection is missing too, and never on real data.  When it
    returns, it has written to [cerr] exactly when the event is simulated
    and the hit collection is missing, and has put a collection exactly
    when the event is simulated and the hit collection is there; for a hit
    collection without hits this collection is empty. *)
Theorem produce_endings (A : Arith) (Hit : Type)
    (HitToTrackID : Hit -> list (TrackIDE A)) (evt : Event Hit) :
  (produce A Hit HitToTrackID evt = Throws_ProductNotFound <->
   isRealData evt = false /\ mcparticles evt = None) /\
  (forall eff,
     produce A Hit HitToTrackID evt = Returns eff ->
     (cerr eff ≠ [] <-> isRealData evt = false /\ hits evt = None) /\
     (is_Some (put eff) <-> isRealData evt = false /\ is_Some (hits evt)) /\
     (hits evt = Some [] -> put eff = Some [] \/ isRealData evt = true)).
Proof.
  unfold produce. destruct evt as [[] [ps|] [hitList|]]; simpl.
  all: split; [split; [done|by intros [? ?]]|].
  all: intros eff [= <-]; simpl.
  all: split_and!; try (intros [= ->]); try (by left); try (by right).
  all: try (split; [done|by intros [? ?]]).
  all: try (split; [by intros [? ?]|by intros [? [? ?]]]).
  all: try (split; [done|by intros [? [? ?]]]).
  all: try (split; [by intros ?|by intros [? ?]]).
  all: try (split; [by intros ?|by eexists]).
Qed.

Lemma produce_endings_witness :
  produce IEEE nat scenario_bt event_without_products = Throws_ProductNotFound /\
  is_Some (put {| cerr := []; put := Some mixed_out |}).
Proof.
  split.
  - apply (proj1 (produce_endings IEEE nat scenario_bt event_without_products)).
    split; reflexivity.
  - apply (proj1 (proj2 (proj2 (produce_endings IEEE nat mixed_bt
                                  (simulated_event mixed_particles 1))
                                  {| cerr := []; put := Some mixed_out |} eq_refl))).
    split; [reflexivity|by eexists].
Defined.

(** X3.  The collection [produce] puts has, for every hit, at most as
    many associations as the records of the hit have distinct track ids,
    hence at most as many as it has records; with at most 2^31 particles
    it has exactly as many as there are distinct track ids among the
    records that some particle carries. *)
Theorem associations_of_a_hit_counted (A : Arith) (Hit : Type)
    (HitToTrackID : Hit -> list (TrackIDE A)) (mcpartList : list MCParticle)
    (hitList : list Hit) (j : nat) (h : Hit) :
  hitList !! j = Some h ->
  exists out,
    produce A Hit HitToTrackID
      {| isRealData := false; mcparticles := Some mcpartList; hits := Some hitList |} =
      Returns {| cerr := []; put := Some out |} /\
    (length (assns_of_hit j out) <= size (track_ids (HitToTrackID h)))%nat /\
    (size (track_ids (HitToTrackID h)) <= length (HitToTrackID h))%nat /\
    (Z.of_nat (length mcpartList) <= 2 ^ 31 ->
     length (assns_of_hit j out) =
       size (filter (carried mcpartList) (track_ids (HitToTrackID h)))).
Proof.
  intros Hj.
  destruct (produce_hit A Hit HitToTrackID mcpartList hitList j h Hj) as (out & Hout & Hpart).
  exists out. split; [done|]. rewrite Hpart. split_and!.
  - apply hit_assns_length_le.
  - apply track_ids_size.
  - intros Hlen. by apply hit_assns_length_carried.
Qed.

Lemma associations_of_a_hit_counted_witness :
  exists out,
    produce IEEE nat mixed_bt (simulated_event mixed_particles 1) =
      Returns {| cerr := []; put := Some out |} /\
    (length (assns_of_hit 0 out) <= size (track_ids mixed_records))%nat /\
    length (assns_of_hit 0 out) =
      size (filter (carried mixed_particles) (track_ids mixed_records)).
Proof.
  destruct (associations_of_a_hit_counted IEEE nat mixed_bt mixed_particles [0%nat] 0 0%nat)
    as (out & Hout & Hle & _ & Heq); [reflexivity|].
  exists out. split_and!; [exact Hout|exact Hle|].
  apply Heq. vm_compute. discriminate.
Defined.

(** X4.  No association has the particle key [-1].  With at most 2^31
    particles, the particle key of every association [produce] puts is a
    position of the particle collection, its hit key is a position of the
    hit collection, and the associations of one hit have pairwise
    different particle keys: no particle is associated twice with the
    same hit. *)
Theorem associations_are_valid_and_unique (A : Arith) (Hit : Type)
    (HitToTrackID : Hit -> list (TrackIDE A)) (mcpartList : list MCParticle)
    (hitList : list Hit) :
  exists out,
    produce A Hit HitToTrackID
      {| isRealData := false; mcparticles := Some mcpartList; hits := Some hitList |} =
      Returns {| cerr := []; put := Some out |} /\
    (forall a, a ∈ out -> mcpart_key a ≠ -1 /\ (hit_key a < length hitList)%nat) /\
    (Z.of_nat (length mcpartList) <= 2 ^ 31 ->
     (forall a, a ∈ out -> 0 <= mcpart_key a < Z.of_nat (length mcpartList)) /\
     (forall j, NoDup (mcpart_key <$> assns_of_hit j out))).
Proof.
  eexists. split; [apply produce_put|]. split.
  - intros a (j & h & Hj & Ha)%elem_of_event_assns. simpl in Ha.
    apply elem_of_hit_assns in Ha as (k & info & _ & Hr & ->). simpl.
    split; [done|]. by apply lookup_lt_Some in Hj.
  - intros Hlen. split.
    + intros a (j & h & Hj & Ha)%elem_of_event_assns. simpl in Ha.
      apply elem_of_hit_assns in Ha as (k & info & _ & Hr & ->). simpl.
      apply (first_carrier_range mcpartList k). by apply resolve_first_carrier.
    + intros j. destruct (hitList !! j) as [h|] eqn:Hj.
      * pose proof (assns_of_hit_event A Hit HitToTrackID mcpartList 0 hitList j h Hj)
          as Hpart.
        simpl in Hpart. rewrite Hpart. by apply hit_assns_keys_NoDup.
      * unfold assns_of_hit. rewrite filter_none; [constructor|].
        intros a (j' & h & Hj' & Ha%hit_assns_key)%elem_of_event_assns.
        intros Hk. simpl in Ha, Hk. rewrite Ha in Hk. subst j'. congruence.
Qed.

Lemma associations_are_valid_and_unique_witness :
  exists out,
    produce IEEE nat scenario_bt (simulated_event scenario_particles 2) =
      Returns {| cerr := []; put := Some out |} /\
    (forall a, a ∈ out -> 0 <= mcpart_key a < 3) /\
    (forall j, NoDup (mcpart_key <$> assns_of_hit j out)).
Proof.
  destruct (associations_are_valid_and_unique IEEE nat scenario_bt scenario_particles
              [0%nat; 1%nat]) as (out & Hout & _ & Hvalid).
  exists out. split; [exact Hout|]. apply Hvalid. vm_compute. discriminate.
Defined.

(** X5.  The collection [produce] puts is ordered by hit: it is the
    concatenation, in the order of the hit collection, of the
    associations of the single hits.  Hits that follow only append: the
    collection put for a longer hit collection starts with the one put
    for its beginning. *)
Theorem associations_are_grouped_by_hit (A : Arith) (Hit : Type)
    (HitToTrackID : Hit -> list (TrackIDE A)) (mcpartList : list MCParticle)
    (hitList : list Hit) :
  exists out,
    produce A Hit HitToTrackID
      {| isRealData := false; mcparticles := Some mcpartList; hits := Some hitList |} =
      Returns {| cerr := []; put := Some out |} /\
    out = concat ((fun j => assns_of_hit j out) <$> seq 0 (length hitList)) /\
    forall more, exists rest,
      produce A Hit HitToTrackID
        {| isRealData := false; mcparticles := Some mcpartList;
           hits := Some (hitList ++ more) |} =
        Returns {| cerr := []; put := Some (out ++ rest) |}.
Proof.
  eexists. split; [apply produce_put|]. split.
  - apply event_assns_by_hit.
  - intros more. eexists. rewrite produce_put. by rewrite event_assns_app.
Qed.

(** X6.  The associations of a hit depend on the particle collection, on
    the position of the hit and on its contribution records only, up to
    the order in which the collector is visited: in whatever orders the
    range-for of line 173 visits the collector, two events with the same
    particles whose hits at position [j] have the same records get the
    same associations for that hit, in some order, whatever their other
    hits are.  In particular the cache [trkid_lookup], which [produce]
    keeps across the hits, does not show in what is written. *)
Theorem associations_of_a_hit_are_local (A : Arith) (Hit Hit' : Type)
    (HitToTrackID : Hit -> list (TrackIDE A))
    (HitToTrackID' : Hit' -> list (TrackIDE A))
    (visit visit' : nat -> gmap Z (TrackIDEinfo A) -> list (Z * TrackIDEinfo A))
    (mcpartList : list MCParticle)
    (hitList : list Hit) (hitList' : list Hit') (j : nat) (h : Hit) (h' : Hit') :
  visits_all visit ->
  visits_all visit' ->
  hitList !! j = Some h ->
  hitList' !! j = Some h' ->
  HitToTrackID h = HitToTrackID' h' ->
  exists out out',
    produce_in A Hit HitToTrackID visit
      {| isRealData := false; mcparticles := Some mcpartList; hits := Some hitList |} =
      Returns {| cerr := []; put := Some out |} /\
    produce_in A Hit' HitToTrackID' visit'
      {| isRealData := false; mcparticles := Some mcpartList; hits := Some hitList' |} =
      Returns {| cerr := []; put := Some out' |} /\
    assns_of_hit j out ≡ₚ assns_of_hit j out'.
Proof.
  intros Hvisit Hvisit' Hj Hj' Hrecs.
  destruct (produce_in_hit A Hit HitToTrackID visit Hvisit mcpartList hitList j h Hj)
    as (out & Hout & Hpart).
  destruct (produce_in_hit A Hit' HitToTrackID' visit' Hvisit' mcpartList hitList' j h' Hj')
    as (out' & Hout' & Hpart').
  exists out, out'. split_and!; [done|done|]. by rewrite Hpart, Hpart', Hrecs.
Qed.

Lemma associations_of_a_hit_are_local_witness :
  exists out out',
    produce_in IEEE nat scenario_bt alternating
      {| isRealData := false; mcparticles := Some scenario_particles;
         hits := Some [1%nat; 0%nat] |} =
      Returns {| cerr := []; put := Some out |} /\
    produce_in IEEE nat scenario_bt in_map_order
      {| isRealData := false; mcparticles := Some scenario_particles;
         hits := Some [0%nat; 0%nat; 2%nat] |} =
      Returns {| cerr := []; put := Some out' |} /\
    assns_of_hit 1 out ≡ₚ assns_of_hit 1 out'.
Proof.
  apply (associations_of_a_hit_are_local IEEE nat nat scenario_bt scenario_bt
           alternating in_map_order
           scenario_particles [1%nat; 0%nat] [0%nat; 0%nat; 2%nat] 1 0%nat 0%nat).
  - intros i_h c. unfold alternating.
    destruct (Nat.even i_h); [apply reverse_Permutation|reflexivity].
  - intros i_h c. reflexivity.
  - reflexivity.
  - reflexivity.
  - reflexivity.
Defined.

(** X8.  The cache [trkid_lookup].  An iteration of the loop on hits
    leaves the cache as the loop on the records of the hit left it: the
    [operator[]] of line 174 finds every key it asks for and creates no
    element, so that the value [0] of a created element is never taken
    for a particle position.  An entry of the cache is never overwritten.
    After the loop on hits the keys of the cache are the track ids of the
    records of all hits, and each is bound to what the scan of the
    particle collection gives for it. *)
Theorem cache_holds_every_track_id_seen (A : Arith) (Hit : Type)
    (HitToTrackID : Hit -> list (TrackIDE A)) (mcpartList : list MCParticle) :
  (forall i_h h st,
     trkid_lookup (hit_body A Hit HitToTrackID mcpartList i_h h st) =
       trkid_lookup (trkide_loop A mcpartList (HitToTrackID h) (reset A st)) /\
     forall k v, trkid_lookup st !! k = Some v ->
       trkid_lookup (hit_body A Hit HitToTrackID mcpartList i_h h st) !! k = Some v) /\
  (forall hitList,
     dom (trkid_lookup (hit_loop A Hit HitToTrackID mcpartList 0 hitList (initial A))) =
       ⋃ ((fun h => track_ids (HitToTrackID h)) <$> hitList) /\
     forall k,
       k ∈ ⋃ ((fun h => track_ids (HitToTrackID h)) <$> hitList) ->
       trkid_lookup (hit_loop A Hit HitToTrackID mcpartList 0 hitList (initial A)) !! k =
         Some (resolve mcpartList k)).
Proof.
  split.
  - intros i_h h st. split; [apply hit_body_lookup|].
    intros k v Hk. rewrite hit_body_lookup. by apply trkide_loop_lookup_keep.
  - intros hitList.
    assert (dom (trkid_lookup (hit_loop A Hit HitToTrackID mcpartList 0 hitList (initial A))) =
            ⋃ ((fun h => track_ids (HitToTrackID h)) <$> hitList)) as Hdom.
    { rewrite hit_loop_lookup_dom. simpl. rewrite dom_empty_L. by rewrite union_empty_r_L. }
    split; [done|]. intros k Hk. rewrite <- Hdom in Hk.
    apply elem_of_dom in Hk as [v Hv]. rewrite Hv. f_equal.
    by apply (hit_loop_cache_ok A Hit HitToTrackID mcpartList 0 hitList (initial A)
                (cache_ok_empty mcpartList) k v).
Qed.

(** X7.  What the associations of a hit carry.  The associations of a
    hit are those of the track ids [k] of its records which the scan
    resolves, one for each: the energy and the number of electrons are
    the amounts of the records of track id [k], added up in [float] in
    record order from zero, and the fractions are these sums divided by
    the totals of the hit. *)
Theorem association_carries_track_sums (A : Arith) (Hit : Type)
    (HitToTrackID : Hit -> list (TrackIDE A)) (mcpartList : list MCParticle)
    (hitList : list Hit) (j : nat) (h : Hit) :
  hitList !! j = Some h ->
  exists out,
    produce A Hit HitToTrackID
      {| isRealData := false; mcparticles := Some mcpartList; hits := Some hitList |} =
      Returns {| cerr := []; put := Some out |} /\
    forall a,
      a ∈ assns_of_hit j out <->
      exists k, k ∈ track_ids (HitToTrackID h) /\ resolve mcpartList k ≠ -1 /\
                a = track_assn mcpartList j (HitToTrackID h) k.
Proof.
  intros Hj.
  destruct (produce_hit A Hit HitToTrackID mcpartList hitList j h Hj) as (out & Hout & Hpart).
  exists out. split; [done|]. rewrite Hpart. intros a.
  assert (forall k info,
    fTrkIDECollector (collected (HitToTrackID h)) !! k = Some info ->
    {| hit_key := j; mcpart_key := resolve mcpartList k;
       data := bthmd A (collected (HitToTrackID h)) (k, info) |} =
    track_assn mcpartList j (HitToTrackID h) k) as Hdata.
  { intros k info Hk. unfold bthmd, track_assn. simpl.
    destruct (collected_sums A (HitToTrackID h) k info Hk) as [-> ->].
    by destruct (totals_collected A (HitToTrackID h)) as [-> ->]. }
  rewrite elem_of_hit_assns. split.
  - intros (k & info & Hk & Hr & ->). exists k. split_and!; [|done|by apply Hdata].
    rewrite <- collected_dom. apply elem_of_dom. by eexists.
  - intros (k & Hk & Hr & ->).
    rewrite <- collected_dom in Hk. apply elem_of_dom in Hk as [info Hk].
    exists k, info. split_and!; [done|done|]. symmetry. by apply Hdata.
Qed.

Lemma association_carries_track_sums_witness :
  exists out,
    produce IEEE nat scenario_bt (simulated_event scenario_particles 1) =
      Returns {| cerr := []; put := Some out |} /\
    forall a,
      a ∈ assns_of_hit 0 out <->
      exists k, k ∈ track_ids scenario_records /\ resolve scenario_particles k ≠ -1 /\
                a = track_assn scenario_particles 0 scenario_records k.
Proof.
  apply (association_carries_track_sums IEEE nat scenario_bt scenario_particles
           [0%nat] 0 0%nat eq_refl).
Defined.

(** X9.  Energy and charge do not mix.  In whatever orders the collector
    is visited, what the associations of a hit say about the energy
    (particle, energy fraction, energy flag and energy) is, up to the
    order of the associations, the same for two back trackers that give
    the hit records with the same track ids and energies, whatever the
    charges are and whatever the other hits are; and what they say about
    the charge does not depend on the energies. *)
Theorem energy_and_charge_do_not_mix (A : Arith) (Hit : Type)
    (HitToTrackID HitToTrackID' : Hit -> list (TrackIDE A))
    (visit visit' : nat -> gmap Z (TrackIDEinfo A) -> list (Z * TrackIDEinfo A))
    (mcpartList : list MCParticle) (hitList : list Hit) (j : nat) (h : Hit) :
  visits_all visit ->
  visits_all visit' ->
  hitList !! j = Some h ->
  exists out out',
    produce_in A Hit HitToTrackID visit
      {| isRealData := false; mcparticles := Some mcpartList; hits := Some hitList |} =
      Returns {| cerr := []; put := Some out |} /\
    produce_in A Hit HitToTrackID' visit'
      {| isRealData := false; mcparticles := Some mcpartList; hits := Some hitList |} =
      Returns {| cerr := []; put := Some out' |} /\
    (energies (HitToTrackID h) = energies (HitToTrackID' h) ->
     energy_part <$> assns_of_hit j out ≡ₚ energy_part <$> assns_of_hit j out') /\
    (charges (HitToTrackID h) = charges (HitToTrackID' h) ->
     charge_part <$> assns_of_hit j out ≡ₚ charge_part <$> assns_of_hit j out').
Proof.
  intros Hvisit Hvisit' Hj.
  destruct (produce_in_hit A Hit HitToTrackID visit Hvisit mcpartList hitList j h Hj)
    as (out & Hout & Hpart).
  destruct (produce_in_hit A Hit HitToTrackID' visit' Hvisit' mcpartList hitList j h Hj)
    as (out' & Hout' & Hpart').
  exists out, out'. rewrite Hpart, Hpart'. split_and!; [done|done| |].
  - intros Heq. by rewrite !energy_part_hit_assns, Heq.
  - intros Heq. by rewrite !charge_part_hit_assns, Heq.
Qed.

Lemma energy_and_charge_do_not_mix_witness :
  exists out out',
    produce_in IEEE nat scenario_bt alternating
      (simulated_event scenario_particles 1) =
      Returns {| cerr := []; put := Some out |} /\
    produce_in IEEE nat recharged_bt in_map_order
      (simulated_event scenario_particles 1) =
      Returns {| cerr := []; put := Some out' |} /\
    energy_part <$> assns_of_hit 0 out ≡ₚ energy_part <$> assns_of_hit 0 out'.
Proof.
  destruct (energy_and_charge_do_not_mix IEEE nat scenario_bt recharged_bt
              alternating in_map_order scenario_particles [0%nat] 0 0%nat)
    as (out & out' & Hout & Hout' & Henergy & _).
  - intros i_h c. unfold alternating.
    destruct (Nat.even i_h); [apply reverse_Permutation|reflexivity].
  - intros i_h c. reflexivity.
  - reflexivity.
  - exists out, out'. split_and!; [exact Hout|exact Hout'|].
    apply Henergy. reflexivity.
Defined.

(** X10.  In the binary32 and binary64 arithmetic a single record with a
    NaN energy spoils the hit: the energy fraction of every association
    that [produce] puts for the hit is NaN, also for the track ids whose
    own records are good.  Likewise a NaN number of electrons makes every
    fraction by charge NaN. *)
Theorem nan_spoils_every_fraction (Hit : Type)
    (HitToTrackID : Hit -> list (TrackIDE IEEE)) (mcpartList : list MCParticle)
    (hitList : list Hit) (j : nat) (h : Hit) (t : TrackIDE IEEE) :
  hitList !! j = Some h ->
  t ∈ HitToTrackID h ->
  exists out,
    produce IEEE Hit HitToTrackID
      {| isRealData := false; mcparticles := Some mcpartList; hits := Some hitList |} =
      Returns {| cerr := []; put := Some out |} /\
    (energy t = S754_nan ->
     forall a, a ∈ assns_of_hit j out -> ideFraction (data a) = S754_nan) /\
    (numElectrons t = S754_nan ->
     forall a, a ∈ assns_of_hit j out -> ideNFraction (data a) = S754_nan).
Proof.
  intros Hj Ht.
  destruct (produce_hit IEEE Hit HitToTrackID mcpartList hitList j h Hj)
    as (out & Hout & Hpart).
  exists out. rewrite Hpart. split; [done|]. split.
  - intros Hnan a (k & info & _ & _ & ->)%elem_of_hit_assns.
    unfold bthmd. cbn [data ideFraction].
    destruct (totals_collected IEEE (HitToTrackID h)) as [-> _].
    rewrite total_energy_of,
      (total_of_nan (energies (HitToTrackID h)) (trackID t, energy t)).
    + change (dbl_div IEEE ?x S754_nan) with (SFdiv Ieee.prec64 Ieee.emax64 x S754_nan).
      by rewrite SFdiv_nan_r.
    + unfold energies. apply list_elem_of_fmap. by exists t.
    + done.
  - intros Hnan a (k & info & _ & _ & ->)%elem_of_hit_assns.
    unfold bthmd. cbn [data ideNFraction].
    destruct (totals_collected IEEE (HitToTrackID h)) as [_ ->].
    rewrite total_charge_of,
      (total_of_nan (charges (HitToTrackID h)) (trackID t, numElectrons t)).
    + change (dbl_div IEEE ?x S754_nan) with (SFdiv Ieee.prec64 Ieee.emax64 x S754_nan).
      by rewrite SFdiv_nan_r.
    + unfold charges. apply list_elem_of_fmap. by exists t.
    + done.
Qed.

Lemma nan_spoils_every_fraction_witness :
  exists out,
    produce IEEE nat nan_bt (simulated_event scenario_particles 1) =
      Returns {| cerr := []; put := Some out |} /\
    forall a, a ∈ assns_of_hit 0 out -> ideFraction (data a) = S754_nan.
Proof.
  destruct (nan_spoils_every_fraction nat nan_bt scenario_particles [0%nat] 0 0%nat
              (Build_TrackIDE IEEE 7 S754_nan (f32 2)) eq_refl)
    as (out & Hout & Henergy & _).
  - right. left.
  - exists out. split; [exact Hout|]. apply Henergy. reflexivity.
Defined.

(** X11.  In the binary32 and binary64 arithmetic, when the energies of
    the records of a hit are binary32 values that are neither NaN nor
    negative, so is the energy of every association [produce] puts for
    the hit (the sum may have overflowed to infinity); likewise for the
    numbers of electrons. *)
Theorem sums_of_good_records_are_good (Hit : Type)
    (HitToTrackID : Hit -> list (TrackIDE IEEE)) (mcpartList : list MCParticle)
    (hitList : list Hit) (j : nat) (h : Hit) :
  hitList !! j = Some h ->
  exists out,
    produce IEEE Hit HitToTrackID
      {| isRealData := false; mcparticles := Some mcpartList; hits := Some hitList |} =
      Returns {| cerr := []; put := Some out |} /\
    (Forall (fun t : TrackIDE IEEE => Ieee.nonneg32 (energy t) = true) (HitToTrackID h) ->
     forall a, a ∈ assns_of_hit j out -> Ieee.nonneg32 (bt_energy (data a)) = true) /\
    (Forall (fun t : TrackIDE IEEE => Ieee.nonneg32 (numElectrons t) = true)
       (HitToTrackID h) ->
     forall a, a ∈ assns_of_hit j out ->
       Ieee.nonneg32 (bt_numElectrons (data a)) = true).
Proof.
  intros Hj.
  destruct (produce_hit IEEE Hit HitToTrackID mcpartList hitList j h Hj)
    as (out & Hout & Hpart).
  exists out. rewrite Hpart. split; [done|]. split.
  - intros Hall a (k & info & Hk & _ & ->)%elem_of_hit_assns.
    unfold bthmd. cbn [data bt_energy snd].
    destruct (collected_sums IEEE (HitToTrackID h) k info Hk) as [-> _].
    unfold track_energy_sum. apply fold_nonneg32; [done|].
    apply Forall_fmap, Forall_forall. intros t [_ Ht]%list_elem_of_filter.
    rewrite Forall_forall in Hall. by apply Hall.
  - intros Hall a (k & info & Hk & _ & ->)%elem_of_hit_assns.
    unfold bthmd. cbn [data bt_numElectrons snd].
    destruct (collected_sums IEEE (HitToTrackID h) k info Hk) as [_ ->].
    unfold track_charge_sum. apply fold_nonneg32; [done|].
    apply Forall_fmap, Forall_forall. intros t [_ Ht]%list_elem_of_filter.
    rewrite Forall_forall in Hall. by apply Hall.
Qed.

Lemma sums_of_good_records_are_good_witness :
  exists out,
    produce IEEE nat scenario_bt (simulated_event scenario_particles 1) =
      Returns {| cerr := []; put := Some out |} /\
    forall a, a ∈ assns_of_hit 0 out -> Ieee.nonneg32 (bt_energy (data a)) = true.
Proof.
  destruct (sums_of_good_records_are_good nat scenario_bt scenario_particles
              [0%nat] 0 0%nat eq_refl) as (out & Hout & Henergy & _).
  exists out. split; [exact Hout|]. apply Henergy.
  repeat (constructor; [reflexivity|]). constructor.
Defined.

(** X13.  The order in which the range-for of line 173 visits the
    collector only shows in the order of the associations of one hit.
    Whatever the order is, [produce] ends in the same way; when it puts a
    collection, this collection is a rearrangement of the one put with the
    order of [map_to_list], with the same sequence of hit keys, and for
    every hit it has the same associations, in some order. *)
Theorem only_the_order_within_a_hit_is_open (A : Arith) (Hit : Type)
    (HitToTrackID : Hit -> list (TrackIDE A))
    (visit : nat -> gmap Z (TrackIDEinfo A) -> list (Z * TrackIDEinfo A))
    (evt : Event Hit) :
  visits_all visit ->
  (forall eff, put eff = None ->
     produce_in A Hit HitToTrackID visit evt = Returns eff <->
     produce A Hit HitToTrackID evt = Returns eff) /\
  (produce_in A Hit HitToTrackID visit evt = Throws_ProductNotFound <->
   produce A Hit HitToTrackID evt = Throws_ProductNotFound) /\
  (forall out',
     produce A Hit HitToTrackID evt = Returns {| cerr := []; put := Some out' |} ->
     exists out,
       produce_in A Hit HitToTrackID visit evt =
         Returns {| cerr := []; put := Some out |} /\
       out ≡ₚ out' /\
       hit_key <$> out = hit_key <$> out' /\
       forall j, assns_of_hit j out ≡ₚ assns_of_hit j out').
Proof.
  intros Hvisit. unfold produce_in, produce.
  destruct (isRealData evt); [by split_and!|].
  destruct (mcparticles evt) as [ps|]; [|by split_and!].
  destruct (hits evt) as [hitList|]; [|by split_and!].
  rewrite (hit_loop_in_spec A Hit HitToTrackID visit Hvisit ps 0 hitList (initial A))
    by apply cache_ok_empty.
  rewrite (hit_loop_spec A Hit HitToTrackID ps 0 hitList (initial A))
    by apply cache_ok_empty.
  simpl. split_and!.
  - intros eff Hnone. split; intros [= <-]; done.
  - done.
  - intros out' [= <-]. eexists. split; [done|].
    pose proof (event_assns_in_perm A Hit HitToTrackID visit Hvisit ps 0 hitList) as Hperm.
    split_and!; [done|by apply event_assns_in_keys|].
    intros j. unfold assns_of_hit. by rewrite Hperm.
Qed.

Lemma only_the_order_within_a_hit_is_open_witness :
  exists out out',
    produce IEEE nat scenario_bt (simulated_event scenario_particles 2) =
      Returns {| cerr := []; put := Some out' |} /\
    produce_in IEEE nat scenario_bt alternating (simulated_event scenario_particles 2) =
      Returns {| cerr := []; put := Some out |} /\
    out ≡ₚ out' /\ hit_key <$> out = hit_key <$> out'.
Proof.
  destruct (only_the_order_within_a_hit_is_open IEEE nat scenario_bt alternating
              (simulated_event scenario_particles 2))
    as (_ & _ & Hput).
  - intros i_h c. unfold alternating.
    destruct (Nat.even i_h); [apply reverse_Permutation|reflexivity].
  - destruct (produce_hit IEEE nat scenario_bt scenario_particles [0%nat; 1%nat]
                0 0%nat eq_refl) as (out' & Hout' & _).
    destruct (Hput out' Hout') as (out & Hout & Hperm & Hkeys & _).
    exists out, out'. split_and!; [exact Hout'|exact Hout|exact Hperm|exact Hkeys].
Defined.
